(** * gifboxes: the 3x3 unveiling animation, specified and verified

    The repository holds two variants of one script:
      - [src/gif_unveil.py]           (module [Root] below),
      - [src/gifboxes/gif_unveil.py]  (module [Pkg] below).
    Both read an image, cut it into a 3x3 grid and emit ten frames that
    uncover the grid cells in the order of a permutation of 1..9.

    Layout of this development:
      - [Py]   the Python built-ins the scripts call (exceptions, [range],
               list indexing, [str] methods, [int], [float] arithmetic);
      - [PIL]  the part of Pillow the scripts call ([Image.new], [crop],
               [paste], [convert], [ImageOps.exif_transpose]);
      - [Sys]  the process: standard output, the file system, [sys.exit];
      - [Root], [Pkg]  the two scripts, function by function;
      - the properties, one section per topic. *)

From Stdlib Require Import ZArith List String Ascii Bool Lia.
From Stdlib Require Import Floats.SpecFloat.
From stdpp Require Import base list gmap sets strings.

Local Open Scope Z_scope.

(** ** Python built-ins *)

Module Py.

(** The exceptions that can travel through the scripts. [ValueError]
    carries its text, since the scripts print it. *)
Inductive exn : Type :=
  | ValueError (msg : string)
  | IndexError
  | OverflowError
  | ZeroDivisionError
  | OSError (msg : string).

(** A computation that returns or raises. *)
Inductive exc (A : Type) : Type :=
  | Val (a : A)
  | Raised (e : exn).
Arguments Val {A} a.
Arguments Raised {A} e.

#[global] Instance exc_ret : MRet exc := fun _ a => Val a.
#[global] Instance exc_bind : MBind exc := fun _ _ f m =>
  match m with
  | Val a => f a
  | Raised e => Raised e
  end.

(** [for x in xs: acc = body(acc, x)], stopping at the first exception. *)
Fixpoint for_each {A B} (xs : list B) (body : A -> B -> exc A) (acc : A) : exc A :=
  match xs with
  | [] => Val acc
  | x :: xs' => acc' ← body acc x; for_each xs' body acc'
  end.

(** A list comprehension [[f(x) for x in xs]]. *)
Fixpoint comprehension {A B} (f : A -> exc B) (xs : list A) : exc (list B) :=
  match xs with
  | [] => Val []
  | x :: xs' => y ← f x; ys ← comprehension f xs'; Val (y :: ys)
  end.

(** [range(a, b)]. *)
Definition range (a b : Z) : list Z :=
  map (fun i => a + Z.of_nat i) (seq 0 (Z.to_nat (b - a))).

(** [l[i]]: a negative index counts from the end, anything outside
    [-len(l) .. len(l)-1] raises [IndexError]. *)
Definition getitem {A} (l : list A) (i : Z) : exc A :=
  let n := Z.of_nat (length l) in
  let j := if i <? 0 then i + n else i in
  if (0 <=? j) && (j <? n) then
    match l !! Z.to_nat j with
    | Some x => Val x
    | None => Raised IndexError
    end
  else Raised IndexError.

(** [set(l)] for a list of integers. *)
Definition set (l : list Z) : gset Z := list_to_set l.

(** [a // b] on integers rounds towards minus infinity, as [Z.div] does. *)
Definition floordiv (a b : Z) : Z := a / b.

(** *** Strings

    A [str] is modelled by [string], one [ascii] per code point, which
    covers the code points below 256. *)

Definition code (c : ascii) : N := N_of_ascii c.

(** [c.isspace()], the separators of [split()] and [strip()]: the
    controls 9-13 and 28-31, the blank, NEL (133) and NBSP (160). *)
Definition isspace (c : ascii) : bool :=
  let n := code c in
  ((9 <=? n) && (n <=? 13) || (28 <=? n) && (n <=? 32) || (n =? 133) || (n =? 160))%N.

(** The blanks that [int] skips around a literal: 9-13 and 32, and the
    two spaces above 127. The controls 28-31 are not among them. *)
Definition int_blank (c : ascii) : bool :=
  let n := code c in
  ((9 <=? n) && (n <=? 13) || (n =? 32) || (n =? 133) || (n =? 160))%N.

Definition isdigit (c : ascii) : bool :=
  let n := code c in ((48 <=? n) && (n <=? 57))%N.

Definition digit_value (c : ascii) : Z := Z.of_N (code c) - 48.

(** [c in s] for a one-character [c]. *)
Fixpoint contains (c : ascii) (s : string) : bool :=
  match s with
  | EmptyString => false
  | String d s' => Ascii.eqb c d || contains c s'
  end.

(** [s.replace(a, b)] for one-character [a] and [b]. *)
Fixpoint replace (a b : ascii) (s : string) : string :=
  match s with
  | EmptyString => EmptyString
  | String d s' => String (if Ascii.eqb d a then b else d) (replace a b s')
  end.

(** Iterating over a string yields its one-character substrings. *)
Fixpoint chars (s : string) : list string :=
  match s with
  | EmptyString => []
  | String c s' => String c EmptyString :: chars s'
  end.

Definition snoc (tok : string) (c : ascii) : string :=
  (tok ++ String c EmptyString)%string.

Definition is_empty (s : string) : bool :=
  match s with EmptyString => true | _ => false end.

(** [s.split()]: the maximal runs of non-space characters. [tok] is the
    run being read. *)
Fixpoint split_runs (s tok : string) : list string :=
  match s with
  | EmptyString => if is_empty tok then [] else [tok]
  | String c s' =>
      if isspace c then
        (if is_empty tok then split_runs s' EmptyString
         else tok :: split_runs s' EmptyString)
      else split_runs s' (snoc tok c)
  end.
Definition split (s : string) : list string := split_runs s EmptyString.

(** [s.split(sep)] for a one-character [sep]: empty fields are kept. *)
Fixpoint split_fields (sep : ascii) (s tok : string) : list string :=
  match s with
  | EmptyString => [tok]
  | String c s' =>
      if Ascii.eqb c sep then tok :: split_fields sep s' EmptyString
      else split_fields sep s' (snoc tok c)
  end.
Definition split_on (sep : ascii) (s : string) : list string :=
  split_fields sep s EmptyString.

Fixpoint lstrip (blank : ascii -> bool) (s : string) : string :=
  match s with
  | EmptyString => EmptyString
  | String c s' => if blank c then lstrip blank s' else s
  end.

Fixpoint rstrip (blank : ascii -> bool) (s : string) : string :=
  match s with
  | EmptyString => EmptyString
  | String c s' =>
      match rstrip blank s' with
      | EmptyString => if blank c then EmptyString else String c EmptyString
      | r => String c r
      end
  end.

(** [s.strip()]. *)
Definition strip (s : string) : string := rstrip isspace (lstrip isspace s).

(** The digits of a decimal literal, read left to right: single
    underscores may separate digits, nothing else may appear.
    [after_digit] tells whether the previous character was a digit. *)
Fixpoint read_digits (s : string) (acc : Z) (after_digit : bool) : option Z :=
  match s with
  | EmptyString => if after_digit then Some acc else None
  | String c s' =>
      if isdigit c then read_digits s' (10 * acc + digit_value c) true
      else if Ascii.eqb c "_" then
        (if after_digit then read_digits s' acc false else None)
      else None
  end.

Definition invalid_literal : exn :=
  ValueError "invalid literal for int() with base 10".

(** [int(s)] for a string: blanks around an optional sign and a decimal
    literal. The interpreter's optional cap on the number of digits of a
    literal ([sys.set_int_max_str_digits]) is not modelled. *)
Definition int (s : string) : exc Z :=
  let body := rstrip int_blank (lstrip int_blank s) in
  let '(negative, digits) :=
    match body with
    | String "-" r => (true, r)
    | String "+" r => (false, r)
    | _ => (false, body)
    end in
  match read_digits digits 0 false with
  | Some v => Val (if negative : bool then - v else v)
  | None => Raised invalid_literal
  end.

(** *** Floats

    A [float] is an IEEE 754 binary64 number: [spec_float] with 53 bits
    of precision and exponents below 1024. *)

Definition prec : Z := 53.
Definition emax : Z := 1024.
Definition float : Type := spec_float.

(** [float(z)] for an integer operand of a mixed operation. *)
Definition float_of_int (z : Z) : exc float :=
  match binary_normalize prec emax z 0 false with
  | S754_infinity _ => Raised OverflowError
  | f => Val f
  end.

Definition float_mul (x y : float) : float := SFmul prec emax x y.

(** [x / y] on floats raises on a zero divisor. *)
Definition float_truediv (x y : float) : exc float :=
  match y with
  | S754_zero _ => Raised ZeroDivisionError
  | _ => Val (SFdiv prec emax x y)
  end.

(** [int(x)] for a float drops the fractional part (towards zero). *)
Definition int_of_float (x : float) : exc Z :=
  match x with
  | S754_zero _ => Val 0
  | S754_infinity _ => Raised OverflowError
  | S754_nan => Raised (ValueError "cannot convert float NaN to integer")
  | S754_finite s m e =>
      let magnitude := if 0 <=? e then Z.pos m * 2 ^ e else Z.pos m / 2 ^ (- e) in
      Val (if s then - magnitude else magnitude)
  end.

End Py.
Export Py.

(** ** Bounding boxes *)

(** A bounding box [(x1, y1, x2, y2)]; it covers the half-open ranges
    [x1 <= x < x2] and [y1 <= y < y2]. *)
Definition box : Type := (Z * Z * Z * Z)%type.

Definition in_box (b : box) (x y : Z) : Prop :=
  let '(x1, y1, x2, y2) := b in x1 <= x < x2 /\ y1 <= y < y2.

Definition box_width (b : box) : Z := let '(x1, _, x2, _) := b in x2 - x1.
Definition box_height (b : box) : Z := let '(_, y1, _, y2) := b in y2 - y1.

(** ** Pillow *)

Module PIL.

(** An RGB pixel. *)
Definition pixel : Type := (Z * Z * Z)%type.

Definition black : pixel := (0, 0, 0).

(** An image object: its mode, its size [(width, height)], the EXIF
    orientation tag (274) when the file carries one, and the pixel rows,
    top row first. The pixels are kept in their RGB rendering; for an
    image of another mode that is what [convert('RGB')] produces. *)
Record Image : Type := mkImage {
  mode : string;
  size : Z * Z;
  orientation : option Z;
  rows : list (list pixel)
}.

Definition width (im : Image) : Z := fst (size im).
Definition height (im : Image) : Z := snd (size im).

(** The rows of a [w] x [h] raster whose pixel at [(x, y)] is [f x y]. *)
Definition raster (w h : Z) (f : Z -> Z -> pixel) : list (list pixel) :=
  map (fun y => map (fun x => f x y) (range 0 w)) (range 0 h).

(** The stored pixel at [(x, y)]; black where nothing is stored, which
    is what [crop] reads outside the image. *)
Definition pixel_at (im : Image) (x y : Z) : pixel :=
  if (0 <=? x) && (0 <=? y) then
    match rows im !! Z.to_nat y with
    | Some row => default black (row !! Z.to_nat x)
    | None => black
    end
  else black.

(** The size and the stored rows agree. *)
Definition well_formed (im : Image) : Prop :=
  0 <= width im /\ 0 <= height im /\
  length (rows im) = Z.to_nat (height im) /\
  Forall (fun row => length row = Z.to_nat (width im)) (rows im).

(** [Image.new(mode, (w, h), color)]. *)
Definition new (mode : string) (size : Z * Z) (color : pixel) : exc Image :=
  let '(w, h) := size in
  if (w <? 0) || (h <? 0) then
    Raised (ValueError "Width and height must be >= 0")
  else Val (mkImage mode (w, h) None (raster w h (fun _ _ => color))).

(** [im.crop((x1, y1, x2, y2))]: a new image of size [(x2-x1, y2-y1)]. *)
Definition crop (im : Image) (b : box) : exc Image :=
  let '(x1, y1, x2, y2) := b in
  if x2 <? x1 then Raised (ValueError "Coordinate 'right' is less than 'left'")
  else if y2 <? y1 then Raised (ValueError "Coordinate 'lower' is less than 'upper'")
  else Val (mkImage (mode im) (x2 - x1, y2 - y1) None
              (raster (x2 - x1) (y2 - y1) (fun x y => pixel_at im (x1 + x) (y1 + y)))).

(** [im.paste(region, (x, y))]: [region] overwrites the pixels of [im]
    from [(x, y)] on, clipped to [im]; sizes and the rest are kept. The
    method mutates [im]; the model returns the image after the call. *)
Definition paste (im region : Image) (at_ : Z * Z) : Image :=
  let '(x0, y0) := at_ in
  mkImage (mode im) (size im) (orientation im)
    (raster (width im) (height im) (fun x y =>
       if (x0 <=? x) && (x <? x0 + width region) &&
          (y0 <=? y) && (y <? y0 + height region)
       then pixel_at region (x - x0) (y - y0)
       else pixel_at im x y)).

(** [im.convert('RGB')]. *)
Definition convert (im : Image) (mode' : string) : Image :=
  mkImage mode' (size im) (orientation im) (rows im).

(** [Image.Transpose]. *)
Inductive Transpose : Type :=
  | FLIP_LEFT_RIGHT | FLIP_TOP_BOTTOM
  | ROTATE_90 | ROTATE_180 | ROTATE_270
  | TRANSPOSE | TRANSVERSE.

(** [im.transpose(method)]. *)
Definition transpose (im : Image) (method : Transpose) : Image :=
  let w := width im in
  let h := height im in
  let '(size', f) :=
    match method with
    | FLIP_LEFT_RIGHT => ((w, h), fun x y => pixel_at im (w - 1 - x) y)
    | FLIP_TOP_BOTTOM => ((w, h), fun x y => pixel_at im x (h - 1 - y))
    | ROTATE_180 => ((w, h), fun x y => pixel_at im (w - 1 - x) (h - 1 - y))
    | ROTATE_90 => ((h, w), fun x y => pixel_at im (w - 1 - y) x)
    | ROTATE_270 => ((h, w), fun x y => pixel_at im y (h - 1 - x))
    | TRANSPOSE => ((h, w), fun x y => pixel_at im y x)
    | TRANSVERSE => ((h, w), fun x y => pixel_at im (w - 1 - y) (h - 1 - x))
    end in
  mkImage (mode im) size' (orientation im) (raster (fst size') (snd size') f).

(** [ImageOps.exif_transpose(im)]: the image turned as its EXIF
    orientation asks, with the tag removed; a copy when there is nothing
    to do. *)
Definition exif_transpose (im : Image) : Image :=
  let method :=
    match orientation im with
    | Some 2 => Some FLIP_LEFT_RIGHT
    | Some 3 => Some ROTATE_180
    | Some 4 => Some FLIP_TOP_BOTTOM
    | Some 5 => Some TRANSPOSE
    | Some 6 => Some ROTATE_270
    | Some 7 => Some TRANSVERSE
    | Some 8 => Some ROTATE_90
    | _ => None
    end in
  match method with
  | Some m =>
      let t := transpose im m in
      mkImage (mode t) (size t) None (rows t)
  | None => im
  end.

End PIL.
Export PIL.

(** ** The process and its surroundings *)

Module Sys.

(** The lines the scripts print, one constructor per [print] call:
      - [f"Error parsing permutation: {e}"],
      - [f"Error creating GIF: {e}"],
      - [f"Error: Image file '{args.image}' not found"],
      - [f"GIF created successfully: {output_path}"]. *)
Inductive line : Type :=
  | ErrorParsingPermutation (e : exn)
  | ErrorCreatingGIF (e : exn)
  | ImageNotFound (path : string)
  | CreatedSuccessfully (path : string).

(** What a path of the file system holds: a decodable image; the
    animation that the encoder wrote, recorded by what the encoder was
    handed (the frames, the per-frame duration in milliseconds, the loop
    count when one was given) - how the encoder stores it is its own
    affair: Pillow merges consecutive frames that do not differ into
    one frame of longer duration; the remains of a write that broke
    off; or anything else. *)
Inductive file : Type :=
  | ImageFile (im : Image)
  | AnimationFile (frames : list Image) (duration : Z) (loop : option Z)
  | PartialFile
  | OtherFile.

(** The calls into the decoder and the encoder, in the order made, the
    encoder's with what it is handed: the path, the frames, the
    per-frame duration and the loop count when one is given. *)
Inductive call : Type :=
  | OpenCall (path : string)
  | SaveCall (path : string) (frames : list Image) (duration : Z) (loop : option Z).

Record World : Type := mkWorld {
  files : gmap string file;
  stdout : list line;
  calls : list call
}.

(** What happens when the encoder writes to a path: the file is written;
    the path cannot be opened for writing; or the path is opened, which
    creates or truncates the file, and the write breaks off midway (the
    disk is full, a file-size limit is hit). *)
Inductive fate : Type :=
  | Written
  | Refused (e : exn)
  | Broken (e : exn).

(** The surroundings the scripts do not control: [pathlib]'s
    [Path(p).with_suffix('.gif')] rendered as a string (it raises
    [ValueError] on a path without a name), and the fate of a write. *)
Record Platform : Type := mkPlatform {
  with_suffix_gif : string -> exc string;
  write_fate : string -> fate
}.

(** How a statement ends: normally, by [sys.exit], or by an exception
    still travelling. *)
Inductive outcome (A : Type) : Type :=
  | Done (a : A)
  | Exit (status : Z)
  | Crash (e : exn).
Arguments Done {A} a.
Arguments Exit {A} status.
Arguments Crash {A} e.

Definition io (A : Type) : Type := World -> outcome A * World.

#[global] Instance io_ret : MRet io := fun _ a w => (Done a, w).
#[global] Instance io_bind : MBind io := fun _ _ f m w =>
  match m w with
  | (Done a, w') => f a w'
  | (Exit n, w') => (Exit n, w')
  | (Crash e, w') => (Crash e, w')
  end.

Definition print (l : line) : io unit := fun w =>
  (Done tt, mkWorld (files w) (stdout w ++ [l]) (calls w)).

Definition exit {A} (status : Z) : io A := fun w => (Exit status, w).

(** A pure computation run as a statement: its exception travels on. *)
Definition lift {A} (m : exc A) : io A := fun w =>
  match m with
  | Val a => (Done a, w)
  | Raised e => (Crash e, w)
  end.

(** [try: body except <handles> as e: handler(e)]. [sys.exit] inside
    [body] is not an [Exception] and passes through. *)
Definition try_except {A} (body : io A) (handles : exn -> bool)
    (handler : exn -> io A) : io A := fun w =>
  match body w with
  | (Crash e, w') => if handles e then handler e w' else (Crash e, w')
  | r => r
  end.

Definition is_ValueError (e : exn) : bool :=
  match e with ValueError _ => true | _ => false end.

(** Every exception of the model derives from [Exception]. *)
Definition is_Exception (e : exn) : bool := true.

Definition log (c : call) (w : World) : World :=
  mkWorld (files w) (stdout w) (calls w ++ [c]).

(** [Path(p).exists()]. *)
Definition path_exists (p : string) : io bool := fun w =>
  (Done (bool_decide (is_Some (files w !! p))), w).

(** [Image.open(p)]. *)
Definition Image_open (p : string) : io Image := fun w =>
  let w' := log (OpenCall p) w in
  match files w !! p with
  | Some (ImageFile im) => (Done im, w')
  | Some _ => (Crash (OSError "cannot identify image file"), w')
  | None => (Crash (OSError "No such file or directory"), w')
  end.

(** [first.save(path, save_all=True, append_images=..., duration=...,
    loop=...)]. Pillow opens [path] for writing, which creates or
    truncates it, and runs the encoder. When the write breaks off, what
    was written so far stays at [path], whether or not the path held a
    file before: a partial file. *)
Definition Image_save (pf : Platform) (first : Image) (path : string)
    (append_images : list Image) (duration : Z) (loop : option Z) : io unit := fun w =>
  let w' := log (SaveCall path (first :: append_images) duration loop) w in
  match write_fate pf path with
  | Written =>
      (Done tt, mkWorld (<[path := AnimationFile (first :: append_images) duration loop]> (files w'))
                  (stdout w') (calls w'))
  | Refused e => (Crash e, w')
  | Broken e =>
      (Crash e, mkWorld (<[path := PartialFile]> (files w')) (stdout w') (calls w'))
  end.

(** The exit status of the process: 0 when [main] returns, the argument
    of [sys.exit], and 1 when an exception reaches the top level. *)
Definition status {A} (o : outcome A) : Z :=
  match o with
  | Done _ => 0
  | Exit n => n
  | Crash _ => 1
  end.

End Sys.
Export Sys.

(** ** [src/gif_unveil.py] *)

Module Root.

(** The parsed permutation, lines 20-24: the separated form when the
    string holds a comma or a blank, the digit string otherwise. *)
Definition parse_permutation (perm_str : string) : exc (list Z) :=
  if contains "," perm_str || contains " " perm_str then
    comprehension int
      (List.filter (fun x => negb (is_empty (strip x)))
         (split (replace "," " " perm_str)))
  else
    comprehension int (chars perm_str).

(** The [try] block of [validate_permutation], lines 19-30. *)
Definition checked_permutation (perm_str : string) : exc (list Z) :=
  perm ← parse_permutation perm_str;
  if negb (Z.of_nat (length perm) =? 9) then
    Raised (ValueError "Permutation must contain exactly 9 numbers")
  else if negb (bool_decide (set perm = set (range 1 10))) then
    Raised (ValueError "Permutation must contain numbers 1-9 exactly once each")
  else Val perm.

(** [validate_permutation], lines 16-33. *)
Definition validate_permutation (perm_str : string) : io (list Z) :=
  try_except (lift (checked_permutation perm_str)) is_ValueError
    (fun e => print (ErrorParsingPermutation e);; exit 1).

(** [get_grid_coordinates], lines 36-50: two nested [for] loops over
    [range(3)] appending to [coordinates]. *)
Definition get_grid_coordinates (width height : Z) : list box :=
  let cell_width := floordiv width 3 in
  let cell_height := floordiv height 3 in
  foldl (fun coordinates row =>
    foldl (fun coordinates col =>
      let x1 := col * cell_width in
      let y1 := row * cell_height in
      let x2 := if col <? 2 then x1 + cell_width else width in
      let y2 := if row <? 2 then y1 + cell_height else height in
      coordinates ++ [(x1, y1, x2, y2)])
      coordinates (range 0 3))
    [] (range 0 3).

(** [create_gray_frame], lines 53-55. *)
Definition create_gray_frame (width height : Z) : exc Image :=
  new "RGB" (width, height) (128, 128, 128).

(** One pass of the inner loop, lines 81-86. *)
Definition reveal (original_img : Image) (grid_coords : list box)
    (permutation : list Z) (frame : Image) (i : Z) : exc Image :=
  v ← getitem permutation i;
  let cell_index := v - 1 in
  '(x1, y1, x2, y2) ← getitem grid_coords cell_index;
  region ← crop original_img (x1, y1, x2, y2);
  Val (paste frame region (x1, y1)).

(** The frames, lines 70-88 of [create_unveil_gif]. *)
Definition render_frames (original_img : Image) (width height : Z)
    (grid_coords : list box) (permutation : list Z) : exc (list Image) :=
  frame0 ← create_gray_frame width height;
  for_each (range 1 10) (fun frames frame_num =>
    frame ← create_gray_frame width height;
    frame ← for_each (range 0 frame_num)
               (reveal original_img grid_coords permutation) frame;
    Val (frames ++ [frame]))
    [frame0].

(** The frame duration in milliseconds, line 91:
    [int((duration_seconds * 1000) / len(frames))]. The integer operands
    are converted to floats before the float operations. *)
Definition frame_duration_ms (duration_seconds : float) (frames : list Image)
    : exc Z :=
  thousand ← float_of_int 1000;
  count ← float_of_int (Z.of_nat (length frames));
  quotient ← float_truediv (float_mul duration_seconds thousand) count;
  int_of_float quotient.

(** [create_unveil_gif], lines 58-105. *)
Definition create_unveil_gif (pf : Platform) (image_path : string)
    (permutation : list Z) (output_path : string) (duration_seconds : float)
    : io unit :=
  try_except
    (original_img ← Image_open image_path;
     let original_img := exif_transpose original_img in
     let original_img :=
       if negb (String.eqb (mode original_img) "RGB")
       then convert original_img "RGB" else original_img in
     let '(width, height) := size original_img in
     let grid_coords := get_grid_coordinates width height in
     frames ← lift (render_frames original_img width height grid_coords permutation);
     frame_duration_ms ← lift (frame_duration_ms duration_seconds frames);
     first ← lift (getitem frames 0);
     Image_save pf first output_path (drop 1 frames) frame_duration_ms None;;
     print (CreatedSuccessfully output_path))
    is_Exception
    (fun e => print (ErrorCreatingGIF e);; exit 1).

(** The parsed command line: [image], [permutation], [-o] and [-d]
    (a float, 12.0 when absent). *)
Record Args : Type := mkArgs {
  image : string;
  permutation : string;
  output : option string;
  duration : float
}.

(** [main], lines 108-131, after [parser.parse_args()]. *)
Definition main (pf : Platform) (args : Args) : io unit :=
  found ← path_exists (image args);
  (if negb found then print (ImageNotFound (image args));; exit 1 else mret tt);;
  output_path ←
    match output args with
    | None => lift (with_suffix_gif pf (image args))
    | Some o => mret o
    end;
  perm ← validate_permutation (permutation args);
  create_unveil_gif pf (image args) perm output_path (duration args).

End Root.

(** ** [src/gifboxes/gif_unveil.py] *)

Module Pkg.

(** The parsed permutation, line 19: the fields between commas, blank
    fields dropped. *)
Definition parse_permutation (perm_str : string) : exc (list Z) :=
  comprehension int
    (List.filter (fun x => negb (is_empty (strip x))) (split_on "," perm_str)).

(** The [try] block of [validate_permutation], lines 19-24. *)
Definition checked_permutation (perm_str : string) : exc (list Z) :=
  perm ← parse_permutation perm_str;
  if negb (Z.of_nat (length perm) =? 9) then
    Raised (ValueError "Permutation must contain exactly 9 numbers")
  else if negb (bool_decide (set perm = set (range 1 10))) then
    Raised (ValueError "Permutation must contain numbers 1-9 exactly once each")
  else Val perm.

(** [validate_permutation], lines 16-27. *)
Definition validate_permutation (perm_str : string) : io (list Z) :=
  try_except (lift (checked_permutation perm_str)) is_ValueError
    (fun e => print (ErrorParsingPermutation e);; exit 1).

(** [get_grid_coordinates], lines 30-44: two nested [for] loops over
    [range(3)] appending to [coordinates]. *)
Definition get_grid_coordinates (width height : Z) : list box :=
  let cell_width := floordiv width 3 in
  let cell_height := floordiv height 3 in
  foldl (fun coordinates row =>
    foldl (fun coordinates col =>
      let x1 := col * cell_width in
      let y1 := row * cell_height in
      let x2 := if col <? 2 then x1 + cell_width else width in
      let y2 := if row <? 2 then y1 + cell_height else height in
      coordinates ++ [(x1, y1, x2, y2)])
      coordinates (range 0 3))
    [] (range 0 3).

(** [create_gray_frame], lines 47-49. *)
Definition create_gray_frame (width height : Z) : exc Image :=
  new "RGB" (width, height) (128, 128, 128).

(** One pass of the inner loop, lines 73-78. *)
Definition reveal (original_img : Image) (grid_coords : list box)
    (permutation : list Z) (frame : Image) (i : Z) : exc Image :=
  v ← getitem permutation i;
  let cell_index := v - 1 in
  '(x1, y1, x2, y2) ← getitem grid_coords cell_index;
  region ← crop original_img (x1, y1, x2, y2);
  Val (paste frame region (x1, y1)).

(** The frames, lines 62-80 of [create_unveil_gif]. *)
Definition render_frames (original_img : Image) (width height : Z)
    (grid_coords : list box) (permutation : list Z) : exc (list Image) :=
  frame0 ← create_gray_frame width height;
  for_each (range 1 10) (fun frames frame_num =>
    frame ← create_gray_frame width height;
    frame ← for_each (range 0 frame_num)
               (reveal original_img grid_coords permutation) frame;
    Val (frames ++ [frame]))
    [frame0].

(** [create_unveil_gif], lines 52-95. *)
Definition create_unveil_gif (pf : Platform) (image_path : string)
    (permutation : list Z) (output_path : string) : io unit :=
  try_except
    (original_img ← Image_open image_path;
     let original_img :=
       if negb (String.eqb (mode original_img) "RGB")
       then convert original_img "RGB" else original_img in
     let '(width, height) := size original_img in
     let grid_coords := get_grid_coordinates width height in
     frames ← lift (render_frames original_img width height grid_coords permutation);
     first ← lift (getitem frames 0);
     Image_save pf first output_path (drop 1 frames) 500 (Some 0);;
     print (CreatedSuccessfully output_path))
    is_Exception
    (fun e => print (ErrorCreatingGIF e);; exit 1).

(** The parsed command line: [image], [permutation] and [-o]
    (['output.gif'] when absent). *)
Record Args : Type := mkArgs {
  image : string;
  permutation : string;
  output : string
}.

(** [main], lines 98-115, after [parser.parse_args()]. *)
Definition main (pf : Platform) (args : Args) : io unit :=
  found ← path_exists (image args);
  (if negb found then print (ImageNotFound (image args));; exit 1 else mret tt);;
  perm ← validate_permutation (permutation args);
  create_unveil_gif pf (image args) perm (output args).

End Pkg.

(** * Vocabulary of the properties *)

(** The cell of row [row] and column [col], as the loop body computes it. *)
Definition cell (width height row col : Z) : box :=
  (col * (width / 3), row * (height / 3),
   (if col <? 2 then col * (width / 3) + width / 3 else width),
   (if row <? 2 then row * (height / 3) + height / 3 else height)).

(** No point lies in two of the rectangles. *)
Definition pairwise_disjoint (cells : list box) : Prop :=
  forall (i j : nat) (bi bj : box) (x y : Z),
    cells !! i = Some bi -> cells !! j = Some bj -> i <> j ->
    in_box bi x y -> ~ in_box bj x y.

(** The points covered by the rectangles are those of
    [0,width) x [0,height). *)
Definition covers (width height : Z) (cells : list box) : Prop :=
  forall x y : Z,
    (exists b, b ∈ cells /\ in_box b x y) <-> (0 <= x < width /\ 0 <= y < height).

(** The rectangles tile the image: nine of them, without overlap and
    without gap. *)
Definition tiles (width height : Z) (cells : list box) : Prop :=
  length cells = 9%nat /\ pairwise_disjoint cells /\ covers width height cells.

(** Row-major order: the cell of row [r], column [c] sits at index [3r+c]. *)
Definition row_major (width height : Z) (cells : list box) : Prop :=
  forall r c : nat, (r < 3)%nat -> (c < 3)%nat ->
    cells !! (3 * r + c)%nat = Some (cell width height (Z.of_nat r) (Z.of_nat c)).

(** The two checks of the validator on a parsed list: nine numbers, and
    the set of them is the set of [range(1, 10)]. *)
Definition valid_permutation (perm : list Z) : Prop :=
  length perm = 9%nat /\ set perm = set (range 1 10).

(** The world after one more printed line. *)
Definition printed (l : line) (w : World) : World :=
  mkWorld (files w) (stdout w ++ [l]) (calls w).

(** The validator rejects: it prints the parse error and exits with
    status 1, touching nothing else. *)
Definition rejects (validate : string -> io (list Z)) (s : string) (w : World) : Prop :=
  exists e, validate s w = (Exit 1, printed (ErrorParsingPermutation e) w).

(** The rejection rule as the specification words it: the validator
    rejects exactly when parsing yields a list with a count other than 9
    or with a set other than {1,...,9}. *)
Definition rejects_only_on_count_or_set
    (parse : string -> exc (list Z)) (validate : string -> io (list Z)) : Prop :=
  forall s w,
    rejects validate s w <->
    exists l, parse s = Val l /\ (length l <> 9%nat \/ set l <> set (range 1 10)).

(** The same rule with the case the code adds: parsing itself raises
    (a token that is not an integer literal). *)
Definition rejects_on_parse_count_or_set
    (parse : string -> exc (list Z)) (validate : string -> io (list Z)) : Prop :=
  forall s w,
    rejects validate s w <->
    (exists e, parse s = Raised e) \/
    (exists l, parse s = Val l /\ (length l <> 9%nat \/ set l <> set (range 1 10))).

(** The validator accepts what parses to a valid permutation, and
    returns it unchanged without printing. *)
Definition accepts_valid
    (parse : string -> exc (list Z)) (validate : string -> io (list Z)) : Prop :=
  forall s w l,
    parse s = Val l -> valid_permutation l ->
    validate s w = (Done l, w) /\ length l = 9%nat.

(** The validator returns or rejects; no exception leaves it. *)
Definition returns_or_rejects (validate : string -> io (list Z)) : Prop :=
  forall s w,
    (exists l, validate s w = (Done l, w) /\ valid_permutation l) \/ rejects validate s w.

(** A world with no files. *)
Definition empty_world : World := mkWorld ∅ [] [].

(** The gray fill. *)
Definition gray : pixel := (128, 128, 128).

(** The point [(x, y)] lies in the box, as a test. *)
Definition inside (b : box) (x y : Z) : bool :=
  let '(x1, y1, x2, y2) := b in
  (x1 <=? x) && (x <? x2) && (y1 <=? y) && (y <? y2).

(** The cell indices that the inner loop of frame [k] visits:
    [permutation[i] - 1] for [i] in [range(k)]. *)
Definition revealed_cells (perm : list Z) (k : nat) : list Z :=
  map (fun v => v - 1) (take k perm).

(** The set of cells revealed in frame [k]. *)
Definition revealed_set (perm : list Z) (k : nat) : gset Z :=
  list_to_set (revealed_cells perm k).

(** The point [(x, y)] lies in a cell revealed in frame [k]. *)
Definition revealed_at (grid : list box) (perm : list Z) (k : nat) (x y : Z) : Prop :=
  exists c b, c ∈ revealed_cells perm k /\ 0 <= c /\
              grid !! Z.to_nat c = Some b /\ in_box b x y.

(** The point [(x, y)] lies in one of the cells [cells], given by their
    indices in the grid. *)
Definition in_cells (grid : list box) (cells : gset Z) (x y : Z) : Prop :=
  exists c b, c ∈ cells /\ 0 <= c /\ grid !! Z.to_nat c = Some b /\ in_box b x y.

(** [cells] is the set of revealed cells of the frame [fr] rendered from
    [src]: cells among the nine of the grid such that the frame, which
    has the size of the source, shows the source at every point inside
    one of them and gray at every other point. *)
Definition revealed_in (src : Image) (grid : list box) (fr : Image)
    (cells : gset Z) : Prop :=
  (forall c, c ∈ cells -> 0 <= c <= 8) /\
  size fr = size src /\
  forall x y, 0 <= x < width src -> 0 <= y < height src ->
    (in_cells grid cells x y -> pixel_at fr x y = pixel_at src x y) /\
    (~ in_cells grid cells x y -> pixel_at fr x y = gray).

(** A source on which the revealed cells can be told from a frame: no
    cell is empty (the image is 3 x 3 at least) and no pixel of the
    source is the gray of the fill. *)
Definition telling (src : Image) : Prop :=
  3 <= width src /\ 3 <= height src /\
  forall x y, 0 <= x < width src -> 0 <= y < height src -> pixel_at src x y <> gray.

(** A [w] x [h] RGB image showing the source inside the boxes [bs] and
    gray elsewhere. *)
Definition painted (src : Image) (w h : Z) (bs : list box) : Image :=
  mkImage "RGB" (w, h) None
    (raster w h (fun x y =>
       if existsb (fun b => inside b x y) bs then pixel_at src x y else gray)).

(** The box of the cell numbered [v] (1-based) in [grid]. *)
Definition box_of (grid : list box) (v : Z) : box :=
  default ((0, 0, 0, 0) : box) (grid !! Z.to_nat (v - 1)).

(** The frames in closed form: frame [k] shows the source inside the
    boxes of the first [k] entries of the permutation, gray elsewhere. *)
Definition expected_frames (src : Image) (w h : Z) (grid : list box)
    (perm : list Z) : list Image :=
  map (fun k => painted src w h (map (box_of grid) (take k perm))) (seq 0 10).

(** What the ten frames of a source image must be: ten images of the
    size of the source; in frame [k] a pixel inside a cell revealed in
    frame [k] is the source pixel and any other pixel is gray; frame 0
    is gray all over; frame 9 stores the pixels of the source. *)
Definition unveils (src : Image) (perm : list Z) (frames : list Image) : Prop :=
  let w := width src in
  let h := height src in
  let grid := Root.get_grid_coordinates w h in
  length frames = 10%nat /\
  (forall (k : nat) (fr : Image), frames !! k = Some fr ->
     size fr = (w, h) /\ well_formed fr /\
     forall x y, 0 <= x < w -> 0 <= y < h ->
       (revealed_at grid perm k x y -> pixel_at fr x y = pixel_at src x y) /\
       (~ revealed_at grid perm k x y -> pixel_at fr x y = gray)) /\
  (exists f0, frames !! 0%nat = Some f0 /\ rows f0 = raster w h (fun _ _ => gray)) /\
  (exists f9, frames !! 9%nat = Some f9 /\ size f9 = size src /\ rows f9 = rows src).

(** Lines 82-86 for a cell index already computed: look the box up,
    crop it from the source, paste it at its place. *)
Definition paste_cell (src : Image) (grid : list box) (frame : Image) (c : Z)
    : exc Image :=
  '(x1, y1, x2, y2) ← getitem grid c;
  region ← crop src (x1, y1, x2, y2);
  Val (paste frame region (x1, y1)).

(** A 9 x 9 image with one colour per 3 x 3 cell. *)
Definition tile_image : Image :=
  mkImage "RGB" (9, 9) None
    (raster 9 9 (fun x y => (10 * (3 * (y / 3) + x / 3 + 1), x, y))).

(** The image the frames are rendered from, once the file is decoded:
    lines 63-65 of [src/gif_unveil.py] turn the image as its EXIF
    orientation asks and convert it to RGB; lines 56-57 of
    [src/gifboxes/gif_unveil.py] only convert it. *)
Definition Root_loaded (im : Image) : Image :=
  let original_img := exif_transpose im in
  if negb (String.eqb (mode original_img) "RGB")
  then convert original_img "RGB" else original_img.

Definition Pkg_loaded (im : Image) : Image :=
  if negb (String.eqb (mode im) "RGB") then convert im "RGB" else im.

(** The frames rendered from a loaded image, lines 67-88. *)
Definition rendered (src : Image) (perm : list Z) : exc (list Image) :=
  Root.render_frames src (width src) (height src)
    (Root.get_grid_coordinates (width src) (height src)) perm.

(** The world after the encoder left the file [f] at [path]. *)
Definition written (path : string) (f : file) (w : World) : World :=
  mkWorld (<[path := f]> (files w)) (stdout w) (calls w).

(** The world after a failed [create_unveil_gif]: the error is printed. *)
Definition failed (e : exn) (w : World) : outcome unit * World :=
  (Exit 1, printed (ErrorCreatingGIF e) w).

(** What [Image.save] leaves behind and how [create_unveil_gif] ends,
    by the fate of the write. *)
Definition saved (pf : Platform) (out : string) (frames : list Image)
    (ms : Z) (loop : option Z) (w : World) : outcome unit * World :=
  let w2 := log (SaveCall out frames ms loop) w in
  match write_fate pf out with
  | Written =>
      (Done tt, printed (CreatedSuccessfully out)
                  (written out (AnimationFile frames ms loop) w2))
  | Refused e => failed e w2
  | Broken e => failed e (written out PartialFile w2)
  end.

(** The decoder's answer for a path. *)
Definition opened (w : World) (path : string) : exc Image :=
  match files w !! path with
  | Some (ImageFile im) => Val im
  | Some _ => Raised (OSError "cannot identify image file")
  | None => Raised (OSError "No such file or directory")
  end.

(** The permutation argument is invalid: whatever it parses to, if it
    parses, is not a valid permutation. *)
Definition invalid_for (parse : string -> exc (list Z)) (s : string) : Prop :=
  forall l, parse s = Val l -> ~ valid_permutation l.

(** The run ends with status 1 on the permutation error, having printed
    that error and nothing else. *)
Definition reports_invalid_permutation (w : World) (r : outcome unit * World) : Prop :=
  exists e, r = (Exit 1, printed (ErrorParsingPermutation e) w).

(** Neither the decoder nor the encoder was called, no file changed. *)
Definition no_image_work (w w' : World) : Prop :=
  calls w' = calls w /\ files w' = files w.

(** One run of either script, on its parsed command line. *)
Inductive invocation : Type :=
  | RootRun (args : Root.Args)
  | PkgRun (args : Pkg.Args).

Definition run (pf : Platform) (inv : invocation) : io unit :=
  match inv with
  | RootRun args => Root.main pf args
  | PkgRun args => Pkg.main pf args
  end.

Definition image_of (inv : invocation) : string :=
  match inv with
  | RootRun args => Root.image args
  | PkgRun args => Pkg.image args
  end.

Definition permutation_of (inv : invocation) : string :=
  match inv with
  | RootRun args => Root.permutation args
  | PkgRun args => Pkg.permutation args
  end.

Definition parser_of (inv : invocation) : string -> exc (list Z) :=
  match inv with
  | RootRun _ => Root.parse_permutation
  | PkgRun _ => Pkg.parse_permutation
  end.

Definition checked_of (inv : invocation) : exc (list Z) :=
  match inv with
  | RootRun args => Root.checked_permutation (Root.permutation args)
  | PkgRun args => Pkg.checked_permutation (Pkg.permutation args)
  end.

(** The output path: lines 122-125 of [src/gif_unveil.py] derive it
    from the image path when [-o] is absent; in
    [src/gifboxes/gif_unveil.py] the parser supplies the default. *)
Definition output_of (pf : Platform) (inv : invocation) : exc string :=
  match inv with
  | RootRun args =>
      match Root.output args with
      | None => with_suffix_gif pf (Root.image args)
      | Some o => Val o
      end
  | PkgRun args => Val (Pkg.output args)
  end.

Definition loaded_of (inv : invocation) : Image -> Image :=
  match inv with
  | RootRun _ => Root_loaded
  | PkgRun _ => Pkg_loaded
  end.

(** The per-frame duration and the loop count handed to the encoder. *)
Definition encoding_of (inv : invocation) (frames : list Image)
    : exc (Z * option Z) :=
  match inv with
  | RootRun args => ms ← Root.frame_duration_ms (Root.duration args) frames; Val (ms, None)
  | PkgRun _ => Val (500, Some 0)
  end.

(** A printed line that reports an error. *)
Definition diagnostic (l : line) : Prop :=
  match l with
  | CreatedSuccessfully _ => False
  | _ => True
  end.

(** The ways a run can go, in the order of the steps of [main] and
    [create_unveil_gif]: the image path does not exist; the default
    output path cannot be derived; the permutation is rejected; the
    decoder, the renderer or the duration computation raises; or the
    encoder is called with the rendered frames. *)
Inductive run_case (pf : Platform) (inv : invocation) (w : World)
    : outcome unit * World -> Prop :=
  | ImageMissing :
      files w !! image_of inv = None ->
      run_case pf inv w (Exit 1, printed (ImageNotFound (image_of inv)) w)
  | OutputUnknown e :
      is_Some (files w !! image_of inv) ->
      output_of pf inv = Raised e ->
      run_case pf inv w (Crash e, w)
  | PermutationRejected out e :
      is_Some (files w !! image_of inv) ->
      output_of pf inv = Val out ->
      checked_of inv = Raised e ->
      run_case pf inv w (Exit 1, printed (ErrorParsingPermutation e) w)
  | NotDecoded out perm e :
      output_of pf inv = Val out ->
      checked_of inv = Val perm ->
      opened w (image_of inv) = Raised e ->
      run_case pf inv w (failed e (log (OpenCall (image_of inv)) w))
  | NotRendered out perm im e :
      output_of pf inv = Val out ->
      checked_of inv = Val perm ->
      opened w (image_of inv) = Val im ->
      rendered (loaded_of inv im) perm = Raised e ->
      run_case pf inv w (failed e (log (OpenCall (image_of inv)) w))
  | NoDuration out perm im frames e :
      output_of pf inv = Val out ->
      checked_of inv = Val perm ->
      opened w (image_of inv) = Val im ->
      rendered (loaded_of inv im) perm = Val frames ->
      encoding_of inv frames = Raised e ->
      run_case pf inv w (failed e (log (OpenCall (image_of inv)) w))
  | Encoded out perm im frames ms loop :
      output_of pf inv = Val out ->
      checked_of inv = Val perm ->
      opened w (image_of inv) = Val im ->
      rendered (loaded_of inv im) perm = Val frames ->
      length frames = 10%nat ->
      encoding_of inv frames = Val (ms, loop) ->
      run_case pf inv w
        (saved pf out frames ms loop (log (OpenCall (image_of inv)) w)).

(** A run that succeeds: status 0, the success line printed, and as
    only change to the files the animation at the output path that the
    encoder wrote when handed the ten frames rendered from the loaded
    image and the validated permutation, the script's duration and its
    loop count. *)
Definition succeeds (pf : Platform) (inv : invocation) (w : World)
    (r : outcome unit * World) : Prop :=
  exists out perm im frames ms loop,
    fst r = Done tt /\
    output_of pf inv = Val out /\
    checked_of inv = Val perm /\
    opened w (image_of inv) = Val im /\
    rendered (loaded_of inv im) perm = Val frames /\
    length frames = 10%nat /\
    encoding_of inv frames = Val (ms, loop) /\
    files (snd r) = <[out := AnimationFile frames ms loop]> (files w) /\
    stdout (snd r) = stdout w ++ [CreatedSuccessfully out].

(** A run that fails: status 1; either the script printed one error
    line and exited, or an exception reached the top level (where the
    interpreter prints the traceback); and the files are as before,
    unless the write of the encoder broke off: then a partial file is
    left at the output path, whether or not the path held a file
    before. *)
Definition fails (pf : Platform) (w : World) (r : outcome unit * World) : Prop :=
  status (fst r) = 1 /\
  ((exists l, diagnostic l /\ fst r = Exit 1 /\ stdout (snd r) = stdout w ++ [l]) \/
   (exists e, fst r = Crash e /\ stdout (snd r) = stdout w)) /\
  (files (snd r) = files w \/
   exists out frames ms loop e,
     write_fate pf out = Broken e /\
     SaveCall out frames ms loop ∈ calls (snd r) /\
     files (snd r) = <[out := PartialFile]> (files w)).

(** All or nothing, as the specification words it: a run that does not
    end with status 0 leaves no output file, that is, leaves the files
    as they were. *)
Definition all_or_nothing : Prop :=
  forall pf inv w,
    status (fst (run pf inv w)) <> 0 -> files (snd (run pf inv w)) = files w.

(** An invalid permutation is always answered by the permutation
    error, as the specification words it. *)
Definition invalid_permutation_always_reported : Prop :=
  forall pf inv w,
    invalid_for (parser_of inv) (permutation_of inv) ->
    reports_invalid_permutation w (run pf inv w).

(** The calls made between two worlds of one run. *)
Definition new_calls (w w' : World) : list call :=
  drop (length (calls w)) (calls w').

(** The float of an integer constant. *)
Definition as_float (z : Z) : float := binary_normalize prec emax z 0 false.

(** [totalDurationSeconds * 1000 / 10] in float arithmetic. *)
Definition per_frame (total_seconds : float) : float :=
  SFdiv prec emax (SFmul prec emax total_seconds (as_float 1000)) (as_float 10).

(** The integer [z] is the finite float [x] rounded towards zero: its
    sign is that of [x] and its magnitude [n] is the integer part of
    the magnitude [m * 2^e] of [x]. *)
Definition rounds_to (x : float) (z : Z) : Prop :=
  match x with
  | S754_zero _ => z = 0
  | S754_finite s m e =>
      exists n, 0 <= n /\ z = (if s then - n else n) /\
                if 0 <=? e then n = Z.pos m * 2 ^ e
                else n * 2 ^ (- e) <= Z.pos m < (n + 1) * 2 ^ (- e)
  | _ => False
  end.

(** The float 1.999, as the quotient of two exact floats. *)
Definition float_1_999 : float := SFdiv prec emax (as_float 1999) (as_float 1000).

(** The frame lists handed to the encoder during a run. *)
Definition frames_handed (w w' : World) : list (list Image) :=
  omap (fun c => match c with
                 | SaveCall _ frames _ _ => Some frames
                 | OpenCall _ => None
                 end) (new_calls w w').

(** The two scripts render alike, as the specification words it: run
    on the same world with the same image path, valid permutation and
    output path, they hand the encoder the same frames. *)
Definition variants_render_alike : Prop :=
  forall pf w image perm out d framesR framesP,
    valid_permutation perm ->
    framesR ∈ frames_handed w (snd (Root.create_unveil_gif pf image perm out d w)) ->
    framesP ∈ frames_handed w (snd (Pkg.create_unveil_gif pf image perm out w)) ->
    framesR = framesP.

(** A 2 x 1 image, red then blue, whose EXIF orientation is 6 (to be
    shown turned by a quarter). *)
Definition turned_image : Image :=
  mkImage "RGB" (2, 1) (Some 6) [[(255, 0, 0); (0, 0, 255)]].

(** The signed area of a box. *)
Definition area (b : box) : Z := box_width b * box_height b.

(** The sum of a list of integers. *)
Definition total (zs : list Z) : Z := foldr Z.add 0 zs.

(** A box lies within an image of the given size, corners in order. *)
Definition within (width height : Z) (b : box) : Prop :=
  let '(x1, y1, x2, y2) := b in
  0 <= x1 <= x2 /\ x2 <= width /\ 0 <= y1 <= y2 /\ y2 <= height.

(** An entry of the permutation that indexes the nine rectangles:
    1..9 directly and, as Python counts negative indices from the end,
    -8..0 as well. *)
Definition usable (v : Z) : bool := (-8 <=? v) && (v <=? 9).

(** The box [grid_coords[v - 1]]. *)
Definition indexed (grid : list box) (v : Z) : box :=
  match getitem grid (v - 1) with
  | Val b => b
  | Raised _ => (0, 0, 0, 0)
  end.

(** The first [k] entries exist and are usable. *)
Definition good_prefix (perm : list Z) (k : nat) : bool :=
  (k <=? length perm)%nat && forallb usable (take k perm).

(** The list can be rendered: it has nine entries at least and the
    first nine are usable. *)
Definition renderable (perm : list Z) : bool := good_prefix perm 9.

(** The frames of a renderable list, in closed form. *)
Definition frames_of (src : Image) (w h : Z) (grid : list box)
    (perm : list Z) : list Image :=
  map (fun k => painted src w h (map (indexed grid) (take k perm))) (seq 0 10).

(** The characters of a string. *)
Definition characters (s : string) : list ascii := list_ascii_of_string s.

(** The character of a digit 0..9. *)
Definition digit_char (v : Z) : ascii := ascii_of_N (Z.to_N (v + 48)).

(** A list of digits written as a digit string, ["392715486"]. *)
Definition digit_string (perm : list Z) : string :=
  string_of_list_ascii (map digit_char perm).

(** A list of digits written with commas, ["3,9,2,7,1,5,4,8,6"]. *)
Fixpoint comma_string (perm : list Z) : string :=
  match perm with
  | [] => EmptyString
  | [v] => String (digit_char v) EmptyString
  | v :: rest => String (digit_char v) (String "," (comma_string rest))
  end.

(** A digit, as a number. *)
Definition is_digit_value (v : Z) : Prop := 0 <= v <= 9.

(** * The built-ins on a few inputs *)

Example int_examples :
  int "7" = Val 7 /\ int " +1_0 " = Val 10 /\ int "-3" = Val (-3) /\
  int "007" = Val 7 /\ int EmptyString = Raised invalid_literal /\
  int "1__0" = Raised invalid_literal /\ int "_1" = Raised invalid_literal /\
  int "a" = Raised invalid_literal.
Proof. repeat split. Qed.

Example split_examples :
  split " 1  2 3 " = ["1"; "2"; "3"]%string /\
  split_on "," "1,,2," = ["1"%string; EmptyString; "2"%string; EmptyString] /\
  split_on "," EmptyString = [EmptyString] /\ strip "  a b  " = "a b"%string.
Proof. repeat split. Qed.

Example float_examples :
  (d ← float_of_int 12; k ← float_of_int 1000; n ← float_of_int 10;
   q ← float_truediv (float_mul d k) n; int_of_float q) = Val 1200.
Proof. vm_compute. reflexivity. Qed.

(** * The partitioner *)

Section Partition.

Lemma grid_cells width height :
  Root.get_grid_coordinates width height =
  [ cell width height 0 0; cell width height 0 1; cell width height 0 2;
    cell width height 1 0; cell width height 1 1; cell width height 1 2;
    cell width height 2 0; cell width height 2 1; cell width height 2 2 ].
Proof. reflexivity. Qed.

Lemma grid_length width height :
  length (Root.get_grid_coordinates width height) = 9%nat.
Proof. reflexivity. Qed.

Lemma grid_row_major width height :
  row_major width height (Root.get_grid_coordinates width height).
Proof.
  intros r c Hr Hc. rewrite grid_cells.
  destruct r as [|[|[|r]]]; [| | |lia];
    (destruct c as [|[|[|c]]]; [| | |lia]); reflexivity.
Qed.

Lemma div3_bounds (n : Z) : 3 * (n / 3) <= n < 3 * (n / 3) + 3.
Proof. pose proof (Z.div_mod n 3). pose proof (Z.mod_pos_bound n 3). lia. Qed.

Ltac concrete_tests :=
  change (0 <? 2) with true in *; change (1 <? 2) with true in *;
  change (2 <? 2) with false in *; cbv iota in *.

Lemma in_cell width height row col x y :
  in_box (cell width height row col) x y <->
  (col * (width / 3) <= x < (if col <? 2 then col * (width / 3) + width / 3 else width)) /\
  (row * (height / 3) <= y < (if row <? 2 then row * (height / 3) + height / 3 else height)).
Proof. reflexivity. Qed.

(** No two cells share a point, whatever the integers given. *)
Lemma grid_disjoint width height (i j : nat) (bi bj : box) (x y : Z) :
  Root.get_grid_coordinates width height !! i = Some bi ->
  Root.get_grid_coordinates width height !! j = Some bj ->
  i <> j -> in_box bi x y -> ~ in_box bj x y.
Proof.
  intros Hi Hj Hij. rewrite grid_cells in Hi, Hj.
  pose proof (div3_bounds width). pose proof (div3_bounds height).
  repeat (destruct i as [|i]; [apply (inj Some) in Hi; subst bi|]);
    try discriminate;
    (repeat (destruct j as [|j]; [apply (inj Some) in Hj; subst bj|]));
    try discriminate; try congruence;
    rewrite !in_cell; concrete_tests; lia.
Qed.

Lemma grid_covers width height (x y : Z) :
  0 <= width -> 0 <= height ->
  (exists b, b ∈ Root.get_grid_coordinates width height /\ in_box b x y) <->
  (0 <= x < width /\ 0 <= y < height).
Proof.
  intros Hw Hh. rewrite grid_cells.
  pose proof (div3_bounds width). pose proof (div3_bounds height).
  split.
  - intros (b & Hb & Hin).
    repeat (apply elem_of_cons in Hb as [->|Hb]); [..|by apply elem_of_nil in Hb];
      rewrite in_cell in Hin; concrete_tests; lia.
  - intros [Hx Hy].
    assert (exists r c, (r = 0 \/ r = 1 \/ r = 2) /\ (c = 0 \/ c = 1 \/ c = 2) /\
                        in_box (cell width height r c) x y) as (r & c & Hr & Hc & Hin).
    { exists (if y <? height / 3 then 0 else if y <? 2 * (height / 3) then 1 else 2 : Z).
      exists (if x <? width / 3 then 0 else if x <? 2 * (width / 3) then 1 else 2 : Z).
      rewrite in_cell.
      destruct (Z.ltb_spec y (height / 3)), (Z.ltb_spec y (2 * (height / 3))),
        (Z.ltb_spec x (width / 3)), (Z.ltb_spec x (2 * (width / 3)));
        concrete_tests; lia. }
    exists (cell width height r c). split; [|done].
    destruct Hr as [->|[->| ->]], Hc as [->|[->| ->]];
      repeat (apply elem_of_cons; first [left; reflexivity | right]).
Qed.

Lemma grid_tiles width height :
  0 <= width -> 0 <= height ->
  tiles width height (Root.get_grid_coordinates width height).
Proof.
  intros Hw Hh. split; [apply grid_length|]. split.
  - intros i j bi bj x y. apply grid_disjoint.
  - intros x y. by apply grid_covers.
Qed.

(** C1. The partitioner returns exactly nine rectangles, in row-major
    order (the cell of row r and column c at index 3r+c), and no point
    lies in two of them, whatever the integers given; for every size of
    an image (a width and a height that are not negative, which is what
    its only caller passes: [original_img.size]) the points they cover
    are exactly those of [0,width) x [0,height), so that they tile the
    image without gap and without overlap. *)
Theorem partition_tiles_image (width height : Z) :
  length (Root.get_grid_coordinates width height) = 9%nat /\
  row_major width height (Root.get_grid_coordinates width height) /\
  pairwise_disjoint (Root.get_grid_coordinates width height) /\
  (0 <= width -> 0 <= height ->
   covers width height (Root.get_grid_coordinates width height) /\
   tiles width height (Root.get_grid_coordinates width height)).
Proof.
  split; [apply grid_length|]. split; [apply grid_row_major|]. split.
  - intros i j bi bj x y. apply grid_disjoint.
  - intros Hw Hh. split; [|by apply grid_tiles].
    intros x y. by apply grid_covers.
Qed.

Lemma partition_tiles_image_witness :
  0 <= 10 /\ 0 <= 10 /\ tiles 10 10 (Root.get_grid_coordinates 10 10).
Proof.
  split; [lia|]. split; [lia|].
  apply (proj2 (proj2 (proj2 (partition_tiles_image 10 10)))); lia.
Defined.

(** C7. For degenerate dimensions (a width or a height below 3) the
    partitioner, which has no branch for them and raises nothing, still
    returns nine rectangles; some of them have zero width or zero
    height (the first two columns when the width is below 3, the first
    two rows when the height is below 3); and the output is accepted
    downstream: [crop] takes every one of the nine boxes. *)
Theorem partition_degenerate (width height : Z) :
  0 <= width -> 0 <= height -> width < 3 \/ height < 3 ->
  length (Root.get_grid_coordinates width height) = 9%nat /\
  (exists b, b ∈ Root.get_grid_coordinates width height /\
             (box_width b = 0 \/ box_height b = 0)) /\
  (width < 3 -> forall r c, 0 <= c < 2 -> box_width (cell width height r c) = 0) /\
  (height < 3 -> forall r c, 0 <= r < 2 -> box_height (cell width height r c) = 0) /\
  (forall im b, b ∈ Root.get_grid_coordinates width height ->
                exists region, crop im b = Val region).
Proof.
  intros Hw Hh Hdeg.
  pose proof (div3_bounds width) as Hcw. pose proof (div3_bounds height) as Hch.
  split; [apply grid_length|]. split; [|split; [|split]].
  - exists (cell width height 0 0). split.
    + rewrite grid_cells. apply elem_of_cons. by left.
    + cbn. lia.
  - intros Hlt r c Hc. unfold cell, box_width.
    destruct (Z.ltb_spec c 2); lia.
  - intros Hlt r c Hr. unfold cell, box_height.
    destruct (Z.ltb_spec r 2); lia.
  - intros im b Hb. rewrite grid_cells in Hb.
    repeat (apply elem_of_cons in Hb as [->|Hb]); [..|by apply elem_of_nil in Hb];
      unfold cell, crop; concrete_tests;
      repeat (match goal with
              | |- context [?a <? ?b] => destruct (Z.ltb_spec a b); [lia|]
              end); eauto.
Qed.

Lemma partition_degenerate_witness :
  0 <= 2 /\ 0 <= 5 /\ (2 < 3 \/ 5 < 3) /\
  Root.get_grid_coordinates 2 5 =
    [ (0, 0, 0, 1); (0, 0, 0, 1); (0, 0, 2, 1);
      (0, 1, 0, 2); (0, 1, 0, 2); (0, 1, 2, 2);
      (0, 2, 0, 5); (0, 2, 0, 5); (0, 2, 2, 5) ] /\
  length (Root.get_grid_coordinates 2 5) = 9%nat.
Proof.
  split; [lia|]. split; [lia|]. split; [lia|]. split; [reflexivity|].
  apply (partition_degenerate 2 5); lia.
Defined.

End Partition.

(** * The permutation validator *)

Section ValidPermutation.

Lemma range_1_10 : range 1 10 = [1; 2; 3; 4; 5; 6; 7; 8; 9].
Proof. reflexivity. Qed.

Lemma NoDup_range_1_10 : NoDup (range 1 10).
Proof. rewrite range_1_10. by apply (bool_decide_unpack _). Qed.

Lemma valid_permutation_Permutation (perm : list Z) :
  valid_permutation perm <-> perm ≡ₚ range 1 10.
Proof.
  split.
  - intros [Hlen Hset]. symmetry. apply submseteq_length_Permutation.
    + apply NoDup_submseteq.
      * apply NoDup_range_1_10.
      * intros x Hx. apply (elem_of_list_to_set (C := gset Z)).
        unfold set in Hset. rewrite Hset. by apply elem_of_list_to_set.
    + by rewrite Hlen.
  - intros Hperm. split.
    + by rewrite Hperm.
    + unfold set. apply set_eq. intros x.
      rewrite !elem_of_list_to_set. by rewrite Hperm.
Qed.

Lemma valid_permutation_NoDup (perm : list Z) :
  valid_permutation perm -> NoDup perm.
Proof.
  intros Hv. apply valid_permutation_Permutation in Hv. rewrite Hv.
  apply NoDup_range_1_10.
Qed.

Lemma valid_permutation_bounds (perm : list Z) (v : Z) :
  valid_permutation perm -> v ∈ perm -> 1 <= v <= 9.
Proof.
  intros Hv Hin. apply valid_permutation_Permutation in Hv.
  rewrite Hv, range_1_10 in Hin.
  repeat (apply elem_of_cons in Hin as [->|Hin]); [lia..|by apply elem_of_nil in Hin].
Qed.

Lemma valid_permutation_covers (perm : list Z) (v : Z) :
  valid_permutation perm -> 1 <= v <= 9 -> v ∈ perm.
Proof.
  intros Hv Hb. apply valid_permutation_Permutation in Hv.
  rewrite Hv, range_1_10.
  rewrite !elem_of_cons. lia.
Qed.

End ValidPermutation.

(** The two validators share their checks and differ in the parser; the
    facts below are proved once, for any parser that raises nothing but
    [ValueError]. *)
Section Validator.

Variable parse : string -> exc (list Z).
Variable checked : string -> exc (list Z).
Variable validate : string -> io (list Z).

Hypothesis parse_raises :
  forall s e, parse s = Raised e -> is_ValueError e = true.

Hypothesis checked_eq : forall s,
  checked s =
  (perm ← parse s;
   if negb (Z.of_nat (length perm) =? 9) then
     Raised (ValueError "Permutation must contain exactly 9 numbers")
   else if negb (bool_decide (set perm = set (range 1 10))) then
     Raised (ValueError "Permutation must contain numbers 1-9 exactly once each")
   else Val perm).

Hypothesis validate_eq : forall s,
  validate s =
  try_except (lift (checked s)) is_ValueError
    (fun e => print (ErrorParsingPermutation e);; exit 1).

Lemma checked_Val s l :
  checked s = Val l <-> parse s = Val l /\ valid_permutation l.
Proof.
  rewrite checked_eq. unfold valid_permutation.
  destruct (parse s) as [perm|e]; cbn.
  - destruct (Z.eqb_spec (Z.of_nat (length perm)) 9) as [Hlen|Hlen]; cbn.
    + case_bool_decide as Hset; cbn.
      * split; [|by intros [? _]].
        intros [= <-]. split; [done|]. split; [lia|done].
      * split; [done|]. intros [[= <-] [_ Hs]]. done.
    + split; [done|]. intros [[= <-] [Hl _]]. lia.
  - split; [done|]. by intros [? _].
Qed.

Lemma checked_Raised s e :
  checked s = Raised e ->
  is_ValueError e = true /\
  ((exists e', parse s = Raised e') \/
   (exists l, parse s = Val l /\ (length l <> 9%nat \/ set l <> set (range 1 10)))).
Proof.
  rewrite checked_eq.
  destruct (parse s) as [perm|e'] eqn:Hparse; cbn.
  - destruct (Z.eqb_spec (Z.of_nat (length perm)) 9) as [Hlen|Hlen]; cbn.
    + case_bool_decide as Hset; cbn; [done|].
      intros [= <-]. split; [done|]. right. exists perm. auto.
    + intros [= <-]. split; [done|]. right. exists perm. split; [done|]. left. lia.
  - intros [= <-]. split; [by eapply parse_raises|]. left. by exists e'.
Qed.

Lemma validate_run s w :
  validate s w =
  match checked s with
  | Val l => (Done l, w)
  | Raised e => (Exit 1, printed (ErrorParsingPermutation e) w)
  end.
Proof.
  rewrite validate_eq. unfold try_except, lift.
  destruct (checked s) as [l|e] eqn:Hc; [done|].
  apply checked_Raised in Hc as [-> _]. reflexivity.
Qed.

Lemma validate_accepts : accepts_valid parse validate.
Proof.
  intros s w l Hparse Hvalid. split; [|apply Hvalid].
  rewrite validate_run.
  by rewrite (proj2 (checked_Val s l) (conj Hparse Hvalid)).
Qed.

Lemma validate_rejects : rejects_on_parse_count_or_set parse validate.
Proof.
  intros s w. unfold rejects. rewrite validate_run. split.
  - intros [e He]. destruct (checked s) as [l|e'] eqn:Hc; [done|].
    by apply checked_Raised in Hc as [_ ?].
  - intros Hwhy. destruct (checked s) as [l|e'] eqn:Hc; [|by exists e'].
    apply checked_Val in Hc as [Hparse [Hlen Hset]].
    destruct Hwhy as [[e He]|(l' & Hl' & Hbad)]; [congruence|].
    rewrite Hparse in Hl'. injection Hl' as <-. tauto.
Qed.

Lemma validate_total : returns_or_rejects validate.
Proof.
  intros s w. unfold rejects. rewrite validate_run.
  destruct (checked s) as [l|e] eqn:Hc.
  - left. exists l. split; [done|]. by apply checked_Val in Hc as [_ ?].
  - right. by exists e.
Qed.

(** A returned permutation is valid, and the world is untouched. *)
Lemma validate_Done s w l w' :
  validate s w = (Done l, w') -> w' = w /\ parse s = Val l /\ valid_permutation l.
Proof.
  rewrite validate_run. destruct (checked s) as [l0|e] eqn:Hc; [|done].
  intros [= <- <-]. split; [done|]. by apply checked_Val.
Qed.

(** Anything but a return is the rejection. *)
Lemma validate_not_Done s w :
  (forall l, parse s = Val l -> ~ valid_permutation l) ->
  exists e, validate s w = (Exit 1, printed (ErrorParsingPermutation e) w).
Proof.
  intros Hbad. rewrite validate_run. destruct (checked s) as [l|e] eqn:Hc; [|by exists e].
  apply checked_Val in Hc as [Hp Hv]. by destruct (Hbad l Hp).
Qed.

End Validator.

Section Parsers.

Lemma int_raises s e : int s = Raised e -> e = invalid_literal.
Proof.
  unfold int.
  destruct (match rstrip int_blank (lstrip int_blank s) with
            | String "-" r => (true, r)
            | String "+" r => (false, r)
            | _ => (false, rstrip int_blank (lstrip int_blank s))
            end) as [negative digits].
  destruct (read_digits digits 0 false); [done|]. by intros [= <-].
Qed.

Lemma comprehension_int_raises xs e :
  comprehension int xs = Raised e -> e = invalid_literal.
Proof.
  induction xs as [|x xs IH]; cbn; [done|].
  destruct (int x) as [v|e'] eqn:Hx; cbn.
  - destruct (comprehension int xs) as [vs|e'']; cbn; [done|].
    intros [= <-]. by apply IH.
  - intros [= <-]. by apply int_raises in Hx.
Qed.

Lemma Root_parse_raises s e :
  Root.parse_permutation s = Raised e -> is_ValueError e = true.
Proof.
  unfold Root.parse_permutation.
  destruct (contains "," s || contains " " s);
    intros ->%comprehension_int_raises; reflexivity.
Qed.

Lemma Pkg_parse_raises s e :
  Pkg.parse_permutation s = Raised e -> is_ValueError e = true.
Proof.
  unfold Pkg.parse_permutation. intros ->%comprehension_int_raises. reflexivity.
Qed.

Lemma Root_validate_Done s w l w' :
  Root.validate_permutation s w = (Done l, w') ->
  w' = w /\ Root.parse_permutation s = Val l /\ valid_permutation l.
Proof.
  apply (validate_Done Root.parse_permutation Root.checked_permutation);
    [apply Root_parse_raises|done|done].
Qed.

Lemma Pkg_validate_Done s w l w' :
  Pkg.validate_permutation s w = (Done l, w') ->
  w' = w /\ Pkg.parse_permutation s = Val l /\ valid_permutation l.
Proof.
  apply (validate_Done Pkg.parse_permutation Pkg.checked_permutation);
    [apply Pkg_parse_raises|done|done].
Qed.

Lemma Root_validate_total : returns_or_rejects Root.validate_permutation.
Proof.
  apply (validate_total Root.parse_permutation Root.checked_permutation);
    [apply Root_parse_raises|done|done].
Qed.

Lemma Pkg_validate_total : returns_or_rejects Pkg.validate_permutation.
Proof.
  apply (validate_total Pkg.parse_permutation Pkg.checked_permutation);
    [apply Pkg_parse_raises|done|done].
Qed.

(** C4, as amended. In both scripts and for every input string: when
    parsing yields exactly nine numbers whose set is {1,...,9} the
    validator returns that sequence of nine integers; it rejects (prints
    the parse error and exits with status 1) if and only if parsing
    itself raises, or yields a count other than 9, or yields a set other
    than {1,...,9}; and it always does one of the two. *)
Theorem validator_contract :
  (accepts_valid Root.parse_permutation Root.validate_permutation /\
   rejects_on_parse_count_or_set Root.parse_permutation Root.validate_permutation /\
   returns_or_rejects Root.validate_permutation) /\
  (accepts_valid Pkg.parse_permutation Pkg.validate_permutation /\
   rejects_on_parse_count_or_set Pkg.parse_permutation Pkg.validate_permutation /\
   returns_or_rejects Pkg.validate_permutation).
Proof.
  split; (split; [|split]).
  - apply (validate_accepts _ Root.checked_permutation);
      [apply Root_parse_raises|done|done].
  - apply (validate_rejects _ Root.checked_permutation);
      [apply Root_parse_raises|done|done].
  - apply Root_validate_total.
  - apply (validate_accepts _ Pkg.checked_permutation);
      [apply Pkg_parse_raises|done|done].
  - apply (validate_rejects _ Pkg.checked_permutation);
      [apply Pkg_parse_raises|done|done].
  - apply Pkg_validate_total.
Qed.

(** C4 as stated fails on a string that does not parse: ["12345678x"]
    is rejected although parsing yields no list at all, so neither a
    count nor a set is there to be wrong. *)
Lemma validator_rejects_bad_literal :
  Root.parse_permutation "12345678x" = Raised invalid_literal /\
  Root.validate_permutation "12345678x" empty_world =
    (Exit 1, printed (ErrorParsingPermutation invalid_literal) empty_world) /\
  ~ rejects_only_on_count_or_set Root.parse_permutation Root.validate_permutation.
Proof.
  split; [reflexivity|]. split; [reflexivity|].
  intros Hrule.
  destruct (proj1 (Hrule "12345678x"%string empty_world)) as (l & Hl & _).
  - by exists invalid_literal.
  - discriminate Hl.
Qed.

(** The inputs the specification lists. *)
Example validator_examples :
  Root.validate_permutation "123456789" empty_world =
    (Done [1; 2; 3; 4; 5; 6; 7; 8; 9], empty_world) /\
  Root.validate_permutation "9,8,7,6,5,4,3,2,1" empty_world =
    (Done [9; 8; 7; 6; 5; 4; 3; 2; 1], empty_world) /\
  Root.validate_permutation "1 2 3 5 4 6 7 8 9" empty_world =
    (Done [1; 2; 3; 5; 4; 6; 7; 8; 9], empty_world) /\
  Pkg.validate_permutation "1, 2,3,4,5,6,7,8,9," empty_world =
    (Done [1; 2; 3; 4; 5; 6; 7; 8; 9], empty_world) /\
  rejects Root.validate_permutation "11234567 8" empty_world /\
  rejects Root.validate_permutation "123456780" empty_world /\
  rejects Root.validate_permutation "12345678" empty_world /\
  rejects Pkg.validate_permutation "123456789" empty_world.
Proof.
  repeat split; try (vm_compute; reflexivity); eexists; vm_compute; reflexivity.
Qed.

End Parsers.
(** * The frame renderer *)

Section Rasters.

Lemma range_lookup (a b : Z) (i : nat) :
  (i < Z.to_nat (b - a))%nat -> range a b !! i = Some (a + Z.of_nat i).
Proof.
  intros Hi. unfold range.
  change (map ?f ?l) with (f <$> l).
  rewrite list_lookup_fmap, lookup_seq_lt by done. reflexivity.
Qed.

Lemma range_length (a b : Z) : length (range a b) = Z.to_nat (b - a).
Proof. unfold range. by rewrite length_map, length_seq. Qed.

Lemma range_snoc (a : Z) (n : nat) :
  range a (a + Z.of_nat (S n)) = range a (a + Z.of_nat n) ++ [a + Z.of_nat n].
Proof.
  unfold range.
  replace (Z.to_nat (a + Z.of_nat (S n) - a)) with (S n) by lia.
  replace (Z.to_nat (a + Z.of_nat n - a)) with n by lia.
  rewrite seq_S, map_app. reflexivity.
Qed.

Lemma raster_lookup (w h : Z) (f : Z -> Z -> pixel) (x y : Z) :
  0 <= x < w -> 0 <= y < h ->
  raster w h f !! Z.to_nat y = Some (map (fun x => f x y) (range 0 w)) /\
  map (fun x => f x y) (range 0 w) !! Z.to_nat x = Some (f x y).
Proof.
  intros Hx Hy. unfold raster.
  change (map ?g ?l) with (g <$> l).
  rewrite !list_lookup_fmap, !range_lookup by lia. cbn.
  rewrite !Z2Nat.id by lia. done.
Qed.

Lemma pixel_at_raster m s o (w h : Z) (f : Z -> Z -> pixel) (x y : Z) :
  0 <= x < w -> 0 <= y < h ->
  pixel_at (mkImage m s o (raster w h f)) x y = f x y.
Proof.
  intros Hx Hy. unfold pixel_at. cbn [rows].
  destruct (raster_lookup w h f x y Hx Hy) as [-> ->].
  destruct (Z.leb_spec 0 x), (Z.leb_spec 0 y); try lia. reflexivity.
Qed.

Lemma raster_ext (w h : Z) (f g : Z -> Z -> pixel) :
  (forall x y, 0 <= x < w -> 0 <= y < h -> f x y = g x y) ->
  raster w h f = raster w h g.
Proof.
  intros Hfg. unfold raster.
  apply map_ext_in. intros y Hy. apply map_ext_in. intros x Hx.
  unfold range in Hx, Hy.
  apply in_map_iff in Hx as (i & <- & Hi). apply in_map_iff in Hy as (j & <- & Hj).
  apply in_seq in Hi, Hj. apply Hfg; lia.
Qed.

Lemma raster_length (w h : Z) f : length (raster w h f) = Z.to_nat h.
Proof. unfold raster. by rewrite length_map, range_length, Z.sub_0_r. Qed.

Lemma raster_row_length (w h : Z) f :
  Forall (fun row => length row = Z.to_nat w) (raster w h f).
Proof.
  unfold raster. apply Forall_forall. intros row Hrow.
  apply list_elem_of_In, in_map_iff in Hrow as (y & <- & _).
  by rewrite length_map, range_length, Z.sub_0_r.
Qed.

(** A well-formed image stores exactly the raster of its pixels. *)
Lemma well_formed_rows (im : Image) :
  well_formed im -> rows im = raster (width im) (height im) (pixel_at im).
Proof.
  intros (Hw & Hh & Hlen & Hrows).
  apply list_eq_same_length with (n := Z.to_nat (height im));
    [by rewrite raster_length|done|].
  intros j row row' Hj Hrow Hrow'.
  assert (0 <= Z.of_nat j < height im) as Hjb by lia.
  unfold raster in Hrow'. change (map ?g ?l) with (g <$> l) in Hrow'.
  rewrite list_lookup_fmap, range_lookup in Hrow' by lia.
  injection Hrow' as <-.
  assert (length row = Z.to_nat (width im)) as Hrl.
  { eapply Forall_forall in Hrows; [exact Hrows|]. by eapply list_elem_of_lookup_2. }
  apply list_eq_same_length with (n := Z.to_nat (width im));
    [by rewrite length_map, range_length, Z.sub_0_r|done|].
  intros i p p' Hi Hp Hp'.
  change (map ?g ?l) with (g <$> l) in Hp'.
  rewrite list_lookup_fmap, range_lookup in Hp' by lia.
  injection Hp' as <-. unfold pixel_at.
  destruct (Z.leb_spec 0 (0 + Z.of_nat i)), (Z.leb_spec 0 (0 + Z.of_nat j)); try lia.
  cbn. rewrite !Z.add_0_l, !Nat2Z.id, Hrow. cbn. by rewrite Hp.
Qed.

End Rasters.

Section Loops.

Lemma for_each_app {A B} (xs ys : list B) (body : A -> B -> exc A) (acc : A) :
  for_each (xs ++ ys) body acc = (acc' ← for_each xs body acc; for_each ys body acc').
Proof.
  revert acc. induction xs as [|x xs IH]; intros acc; cbn; [done|].
  destruct (body acc x) as [acc'|e]; cbn; [apply IH|done].
Qed.

(** A loop that appends one computed element per round. *)
Lemma for_each_append {A B} (ks : list B) (body : list A -> B -> exc (list A))
    (g : B -> A) (acc : list A) :
  (forall frames k, k ∈ ks -> body frames k = Val (frames ++ [g k])) ->
  for_each ks body acc = Val (acc ++ map g ks).
Proof.
  revert acc. induction ks as [|k ks IH]; intros acc Hbody; cbn.
  - by rewrite app_nil_r.
  - rewrite Hbody by (apply elem_of_cons; by left). cbn.
    rewrite IH by (intros frames k' Hk'; apply Hbody, elem_of_cons; by right).
    by rewrite <- app_assoc.
Qed.

Lemma getitem_lookup {A} (l : list A) (i : Z) (x : A) :
  0 <= i -> l !! Z.to_nat i = Some x -> getitem l i = Val x.
Proof.
  intros Hi Hx. unfold getitem.
  pose proof (lookup_lt_Some _ _ _ Hx) as Hlt.
  destruct (Z.ltb_spec i 0); [lia|].
  destruct (Z.leb_spec 0 i); [|lia].
  destruct (Z.ltb_spec i (Z.of_nat (length l))); [|lia].
  cbn. by rewrite Hx.
Qed.

End Loops.

Section Render.

Variables (src : Image) (w h : Z) (perm : list Z).
Hypothesis w_nonneg : 0 <= w.
Hypothesis h_nonneg : 0 <= h.
Hypothesis perm_valid : valid_permutation perm.

Let grid := Root.get_grid_coordinates w h.

Lemma perm_lookup (i : nat) :
  (i < 9)%nat -> exists v, perm !! i = Some v /\ 1 <= v <= 9.
Proof using perm_valid.
  intros Hi. destruct (lookup_lt_is_Some_2 perm i) as [v Hv].
  { destruct perm_valid as [-> _]. done. }
  exists v. split; [done|].
  eapply valid_permutation_bounds; [exact perm_valid|].
  by eapply list_elem_of_lookup_2.
Qed.

Lemma grid_lookup (v : Z) :
  1 <= v <= 9 ->
  exists x1 y1 x2 y2,
    grid !! Z.to_nat (v - 1) = Some (x1, y1, x2, y2) /\
    box_of grid v = (x1, y1, x2, y2) /\ x1 <= x2 /\ y1 <= y2.
Proof using w_nonneg h_nonneg.
  intros Hv. unfold box_of, grid. rewrite grid_cells.
  pose proof (div3_bounds w). pose proof (div3_bounds h).
  assert (v = 1 \/ v = 2 \/ v = 3 \/ v = 4 \/ v = 5 \/ v = 6 \/ v = 7 \/ v = 8 \/ v = 9)
    as Hcases by lia.
  repeat (destruct Hcases as [->|Hcases]); subst;
    (do 4 eexists; split; [reflexivity|]; split; [reflexivity|]);
    change (0 <? 2) with true; change (1 <? 2) with true;
    change (2 <? 2) with false; cbv iota; lia.
Qed.

Lemma inside_in_box (b : box) (x y : Z) : inside b x y = true <-> in_box b x y.
Proof.
  destruct b as [[[x1 y1] x2] y2]. unfold inside, in_box.
  rewrite !andb_true_iff, !Z.leb_le, !Z.ltb_lt. lia.
Qed.

(** Pasting the crop of a box onto a painted frame paints that box. *)
Lemma paste_crop_painted (bs : list box) (x1 y1 x2 y2 : Z) :
  x1 <= x2 -> y1 <= y2 ->
  (region ← crop src (x1, y1, x2, y2);
   Val (paste (painted src w h bs) region (x1, y1)))
  = Val (painted src w h (bs ++ [(x1, y1, x2, y2)])).
Proof.
  intros Hx12 Hy12. unfold crop.
  destruct (Z.ltb_spec x2 x1); [lia|]. destruct (Z.ltb_spec y2 y1); [lia|].
  cbn -[raster]. unfold paste, painted. cbn -[raster pixel_at]. do 2 f_equal.
  apply raster_ext. intros x y Hx Hy.
  rewrite existsb_app. cbn [existsb]. rewrite orb_false_r.
  change ((x1 <=? x) && (x <? x1 + (x2 - x1)) && (y1 <=? y) && (y <? y1 + (y2 - y1)))
    with (inside (x1, y1, x1 + (x2 - x1), y1 + (y2 - y1)) x y).
  replace (x1 + (x2 - x1)) with x2 by lia. replace (y1 + (y2 - y1)) with y2 by lia.
  destruct (inside (x1, y1, x2, y2) x y) eqn:Hin.
  - apply inside_in_box in Hin. cbn in Hin.
    rewrite pixel_at_raster by lia.
    replace (x1 + (x - x1)) with x by lia. replace (y1 + (y - y1)) with y by lia.
    by rewrite orb_true_r.
  - rewrite pixel_at_raster by done. by rewrite orb_false_r.
Qed.

Lemma reveal_painted (bs : list box) (i : nat) (v : Z) :
  perm !! i = Some v ->
  Root.reveal src grid perm (painted src w h bs) (Z.of_nat i)
  = Val (painted src w h (bs ++ [box_of grid v])).
Proof using w_nonneg h_nonneg perm_valid.
  intros Hv. unfold Root.reveal.
  rewrite (getitem_lookup perm (Z.of_nat i) v) by (rewrite ?Nat2Z.id; done || lia).
  cbn -[grid].
  assert (1 <= v <= 9) as Hb.
  { eapply valid_permutation_bounds; [exact perm_valid|]. by eapply list_elem_of_lookup_2. }
  destruct (grid_lookup v Hb) as (x1 & y1 & x2 & y2 & Hg & -> & Hx & Hy).
  rewrite (getitem_lookup grid (v - 1) _ ltac:(lia) Hg). cbn -[grid].
  by apply paste_crop_painted.
Qed.

Lemma gray_frame_painted :
  Root.create_gray_frame w h = Val (painted src w h []).
Proof using w_nonneg h_nonneg.
  unfold Root.create_gray_frame, new.
  destruct (Z.ltb_spec w 0); [lia|]. destruct (Z.ltb_spec h 0); [lia|]. reflexivity.
Qed.

(** The inner loop of frame [k] paints the boxes of the first [k]
    entries of the permutation, in that order. *)
Lemma inner_loop (k : nat) :
  (k <= 9)%nat ->
  for_each (range 0 (Z.of_nat k)) (Root.reveal src grid perm) (painted src w h [])
  = Val (painted src w h (map (box_of grid) (take k perm))).
Proof using w_nonneg h_nonneg perm_valid.
  induction k as [|k IH]; intros Hk; [reflexivity|].
  destruct (perm_lookup k) as (v & Hv & _); [lia|].
  rewrite <- (Z.add_0_l (Z.of_nat (S k))), range_snoc, !Z.add_0_l.
  rewrite for_each_app, IH by lia. cbn -[grid range].
  rewrite (reveal_painted _ k v Hv). cbn -[grid].
  by rewrite (take_S_r _ _ _ Hv), map_app.
Qed.

Lemma render_frames_closed_form :
  Root.render_frames src w h grid perm = Val (expected_frames src w h grid perm).
Proof using w_nonneg h_nonneg perm_valid.
  unfold Root.render_frames. rewrite gray_frame_painted. cbn [mbind exc_bind].
  rewrite (for_each_append (range 1 10) _
             (fun k => painted src w h (map (box_of grid) (take (Z.to_nat k) perm)))).
  - reflexivity.
  - intros frames k Hk.
    assert (exists n, k = Z.of_nat n /\ (n <= 9)%nat) as (n & -> & Hn).
    { apply list_elem_of_In, in_map_iff in Hk as (i & <- & Hi).
      apply in_seq in Hi. exists (S i). split; lia. }
    rewrite inner_loop by done. by rewrite Nat2Z.id.
Qed.

Lemma expected_frames_lookup (k : nat) :
  (k <= 9)%nat ->
  expected_frames src w h grid perm !! k
  = Some (painted src w h (map (box_of grid) (take k perm))).
Proof.
  intros Hk. unfold expected_frames.
  change (map ?g ?l) with (g <$> l) at 1.
  rewrite list_lookup_fmap, lookup_seq_lt by lia. reflexivity.
Qed.

(** The boxes painted in frame [k] are the cells revealed in frame [k]. *)
Lemma painted_boxes_revealed (k : nat) (x y : Z) :
  existsb (fun b => inside b x y) (map (box_of grid) (take k perm)) = true
  <-> revealed_at grid perm k x y.
Proof using w_nonneg h_nonneg perm_valid.
  rewrite existsb_exists. unfold revealed_at, revealed_cells. split.
  - intros (b & Hb & Hin). apply in_map_iff in Hb as (v & <- & Hv).
    apply list_elem_of_In in Hv.
    assert (1 <= v <= 9) as Hbound.
    { eapply valid_permutation_bounds; [exact perm_valid|].
      apply elem_of_take in Hv as (i & Hi & _). by eapply list_elem_of_lookup_2. }
    destruct (grid_lookup v Hbound) as (x1 & y1 & x2 & y2 & Hg & Hbox & _).
    exists (v - 1), (x1, y1, x2, y2). split; [|split; [lia|split; [done|]]].
    + apply list_elem_of_In, in_map_iff. exists v. split; [done|].
      by apply list_elem_of_In.
    + rewrite <- Hbox. by apply inside_in_box.
  - intros (c & b & Hc & Hc0 & Hg & Hin).
    apply list_elem_of_In, in_map_iff in Hc as (v & <- & Hv).
    exists b. split; [|by apply inside_in_box].
    apply in_map_iff. exists v. split; [|done].
    unfold box_of. by rewrite Hg.
Qed.

Lemma painted_well_formed (bs : list box) : well_formed (painted src w h bs).
Proof using w_nonneg h_nonneg.
  unfold well_formed, painted, width, height. cbn -[raster].
  split; [done|]. split; [done|]. split; [apply raster_length|apply raster_row_length].
Qed.

Lemma pixel_at_painted (bs : list box) (x y : Z) :
  0 <= x < w -> 0 <= y < h ->
  pixel_at (painted src w h bs) x y =
  if existsb (fun b => inside b x y) bs then pixel_at src x y else gray.
Proof. intros Hx Hy. unfold painted. by rewrite pixel_at_raster. Qed.

(** In frame 9 every point of the image lies in a revealed cell. *)
Lemma all_revealed (x y : Z) :
  0 <= x < w -> 0 <= y < h -> revealed_at grid perm 9 x y.
Proof using w_nonneg h_nonneg perm_valid.
  intros Hx Hy.
  destruct (proj2 (grid_covers w h x y w_nonneg h_nonneg) (conj Hx Hy)) as (b & Hb & Hin).
  apply list_elem_of_lookup in Hb as [j Hj].
  pose proof (lookup_lt_Some _ _ _ Hj) as Hlt. rewrite grid_length in Hlt.
  exists (Z.of_nat j), b. split; [|split; [lia|split; [by rewrite Nat2Z.id|done]]].
  unfold revealed_cells. rewrite take_ge by (destruct perm_valid as [-> _]; done).
  apply list_elem_of_In, in_map_iff. exists (Z.of_nat j + 1). split; [lia|].
  apply list_elem_of_In. apply valid_permutation_covers; [done|lia].
Qed.

End Render.

(** The closed form of the frames has the properties asked of them. *)
Lemma expected_frames_unveil (src : Image) (perm : list Z) :
  well_formed src -> valid_permutation perm ->
  exists frames,
    Root.render_frames src (width src) (height src)
      (Root.get_grid_coordinates (width src) (height src)) perm = Val frames /\
    unveils src perm frames.
Proof.
  intros Hwf Hperm.
  pose proof Hwf as (Hw & Hh & _).
  exists (expected_frames src (width src) (height src)
            (Root.get_grid_coordinates (width src) (height src)) perm).
  split; [by apply render_frames_closed_form|].
  split; [reflexivity|]. split; [|split].
  - intros k fr Hk.
    assert (k <= 9)%nat as Hk9.
    { apply lookup_lt_Some in Hk. unfold expected_frames in Hk.
      rewrite length_map, length_seq in Hk. lia. }
    rewrite expected_frames_lookup in Hk by done. injection Hk as <-.
    split; [reflexivity|]. split; [by apply painted_well_formed|].
    intros x y Hx Hy. rewrite pixel_at_painted by done.
    pose proof (painted_boxes_revealed (width src) (height src) perm Hw Hh Hperm k x y)
      as Hrev.
    destruct (existsb _ _).
    + split; [done|]. intros Hnot. destruct Hnot. by apply Hrev.
    + split; [|done]. intros Hyes. apply Hrev in Hyes. discriminate.
  - eexists. split; [by apply expected_frames_lookup; lia|]. reflexivity.
  - eexists. split; [by apply expected_frames_lookup; lia|].
    split; [by destruct src as [m [w h] o r]|].
    rewrite (well_formed_rows src Hwf). cbn -[raster].
    apply raster_ext. intros x y Hx Hy.
    pose proof (painted_boxes_revealed (width src) (height src) perm Hw Hh Hperm 9 x y)
      as Hrev.
    rewrite (proj2 Hrev); [done|]. by apply all_revealed.
Qed.

(** C2. For every (well-formed) source image and every valid
    permutation the renderer returns ten frames of the size of the
    source: frame 0 is uniformly gray (128,128,128); in frame k the
    pixels inside the cells permutation[0..k-1] (as 0-based indices) are
    those of the source at the same place and every other pixel is
    (128,128,128); frame 9 stores exactly the pixels of the source. *)
Theorem render_unveils (src : Image) (perm : list Z) :
  well_formed src -> valid_permutation perm ->
  exists frames,
    Root.render_frames src (width src) (height src)
      (Root.get_grid_coordinates (width src) (height src)) perm = Val frames /\
    unveils src perm frames.
Proof. apply expected_frames_unveil. Qed.

Lemma tile_image_well_formed : well_formed tile_image.
Proof.
  unfold well_formed. cbn. split; [lia|]. split; [lia|]. split; [reflexivity|].
  repeat constructor.
Qed.

Lemma render_unveils_witness :
  well_formed tile_image /\ valid_permutation [9; 8; 7; 6; 5; 4; 3; 2; 1] /\
  exists frames,
    Root.render_frames tile_image 9 9 (Root.get_grid_coordinates 9 9)
      [9; 8; 7; 6; 5; 4; 3; 2; 1] = Val frames /\
    unveils tile_image [9; 8; 7; 6; 5; 4; 3; 2; 1] frames.
Proof.
  split; [apply tile_image_well_formed|].
  split; [split; [reflexivity|vm_compute; reflexivity]|].
  apply (render_unveils tile_image [9; 8; 7; 6; 5; 4; 3; 2; 1]).
  - apply tile_image_well_formed.
  - split; [reflexivity|vm_compute; reflexivity].
Defined.

(** The scenarios of the specification, run on the model: with the
    identity permutation frame 1 shows the top-left 3 x 3 block only;
    with the reversed permutation frame 1 shows the bottom-right block
    only; frame 9 is the source in both. *)
Example render_scenarios :
  (frames ← Root.render_frames tile_image 9 9 (Root.get_grid_coordinates 9 9)
              [1; 2; 3; 4; 5; 6; 7; 8; 9];
   Val (rows <$> frames !! 1%nat, rows <$> frames !! 9%nat))
  = Val (Some (raster 9 9 (fun x y =>
                 if (x <? 3) && (y <? 3) then pixel_at tile_image x y else gray)),
         Some (rows tile_image)) /\
  (frames ← Root.render_frames tile_image 9 9 (Root.get_grid_coordinates 9 9)
              [9; 8; 7; 6; 5; 4; 3; 2; 1];
   Val (rows <$> frames !! 1%nat, rows <$> frames !! 9%nat))
  = Val (Some (raster 9 9 (fun x y =>
                 if (6 <=? x) && (6 <=? y) then pixel_at tile_image x y else gray)),
         Some (rows tile_image)).
Proof. split; vm_compute; reflexivity. Qed.

(** A 10 x 10 image: cells of 3 x 3, a last row and column of width 4. *)
Example partition_10_10 :
  Root.get_grid_coordinates 10 10 =
  [ (0, 0, 3, 3); (3, 0, 6, 3); (6, 0, 10, 3);
    (0, 3, 3, 6); (3, 3, 6, 6); (6, 3, 10, 6);
    (0, 6, 3, 10); (3, 6, 6, 10); (6, 6, 10, 10) ].
Proof. reflexivity. Qed.
(** * The order of reveal *)

Section Reveal.

Lemma valid_permutation_decide (perm : list Z) :
  (Z.of_nat (length perm) =? 9) && bool_decide (set perm = set (range 1 10)) = true ->
  valid_permutation perm.
Proof.
  intros [Hlen Hset]%andb_true_iff. split.
  - apply Z.eqb_eq in Hlen. lia.
  - by apply bool_decide_eq_true in Hset.
Qed.

Lemma revealed_cells_S (perm : list Z) (k : nat) (v : Z) :
  perm !! k = Some v ->
  revealed_cells perm (S k) = revealed_cells perm k ++ [v - 1].
Proof.
  intros Hv. unfold revealed_cells. by rewrite (take_S_r _ _ _ Hv), map_app.
Qed.

(** The inner loop of frame [k] pastes the cells [revealed_cells perm k],
    one after the other. *)
Lemma inner_loop_visits (src : Image) (grid : list box) (perm : list Z)
    (k : nat) (frame : Image) :
  (k <= length perm)%nat ->
  for_each (range 0 (Z.of_nat k)) (Root.reveal src grid perm) frame
  = for_each (revealed_cells perm k) (paste_cell src grid) frame.
Proof.
  induction k as [|k IH]; intros Hk; [reflexivity|].
  destruct (lookup_lt_is_Some_2 perm k) as [v Hv]; [lia|].
  rewrite <- (Z.add_0_l (Z.of_nat (S k))), range_snoc, !Z.add_0_l.
  rewrite (revealed_cells_S _ _ _ Hv), !for_each_app, IH by lia.
  destruct (for_each (revealed_cells perm k) (paste_cell src grid) frame)
    as [frame'|e]; [|done].
  cbn [mbind exc_bind for_each]. unfold Root.reveal.
  rewrite (getitem_lookup perm (Z.of_nat k) v) by (rewrite ?Nat2Z.id; done || lia).
  reflexivity.
Qed.

Lemma revealed_cells_NoDup (perm : list Z) (k : nat) :
  valid_permutation perm -> NoDup (revealed_cells perm k).
Proof.
  intros Hv. unfold revealed_cells.
  change (map ?f ?l) with (f <$> l).
  apply NoDup_fmap_2; [intros a b; lia|].
  eapply sublist_NoDup; [by apply valid_permutation_NoDup|apply sublist_take].
Qed.

(** The cells visited by frame k+1 are those of frame k and one more,
    the cell of entry k. *)
Lemma revealed_set_step (perm : list Z) (k : nat) :
  valid_permutation perm -> (k <= 8)%nat ->
  (revealed_set perm k ⊂ revealed_set perm (S k)) /\
  (exists c, 0 <= c <= 8 /\ (c ∉ revealed_set perm k) /\
             revealed_set perm (S k) = revealed_set perm k ∪ {[c]}) /\
  base.size (revealed_set perm k) = k /\ base.size (revealed_set perm (S k)) = S k.
Proof.
  intros Hvalid Hk.
  pose proof Hvalid as [Hlen _].
  destruct (lookup_lt_is_Some_2 perm k) as [v Hv]; [lia|].
  assert (1 <= v <= 9) as Hbound.
  { eapply valid_permutation_bounds; [done|]. by eapply list_elem_of_lookup_2. }
  assert (v - 1 ∉ revealed_set perm k) as Hfresh.
  { unfold revealed_set. rewrite elem_of_list_to_set.
    pose proof (revealed_cells_NoDup perm (S k) Hvalid) as Hnd.
    rewrite (revealed_cells_S _ _ _ Hv) in Hnd.
    apply NoDup_app in Hnd as (_ & Hdisj & _).
    intros Hin. apply (Hdisj _ Hin). apply elem_of_cons. by left. }
  assert (revealed_set perm (S k) = revealed_set perm k ∪ {[v - 1]}) as Hstep.
  { unfold revealed_set. rewrite (revealed_cells_S _ _ _ Hv).
    by rewrite list_to_set_app_L, list_to_set_singleton_L. }
  assert (forall n, (n <= 9)%nat -> base.size (revealed_set perm n) = n) as Hsize.
  { intros n Hn. unfold revealed_set.
    rewrite size_list_to_set by by apply revealed_cells_NoDup.
    unfold revealed_cells. rewrite length_map, length_take. lia. }
  split; [|split; [|split]].
  - rewrite Hstep. split.
    + apply union_subseteq_l.
    + intros Hsub. apply Hfresh, Hsub, elem_of_union. right. by apply elem_of_singleton.
  - exists (v - 1). split; [lia|done].
  - apply Hsize. lia.
  - apply Hsize. lia.
Qed.

Lemma in_cells_revealed_at (grid : list box) (perm : list Z) (k : nat) (x y : Z) :
  in_cells grid (revealed_set perm k) x y <-> revealed_at grid perm k x y.
Proof.
  unfold in_cells, revealed_at, revealed_set.
  split; intros (c & b & Hc & Hrest); exists c, b; (split; [|done]).
  - by apply elem_of_list_to_set in Hc.
  - by apply elem_of_list_to_set.
Qed.

Lemma revealed_set_bounds (perm : list Z) (k : nat) (c : Z) :
  valid_permutation perm -> c ∈ revealed_set perm k -> 0 <= c <= 8.
Proof.
  intros Hvalid Hc. unfold revealed_set, revealed_cells in Hc.
  apply elem_of_list_to_set in Hc.
  apply list_elem_of_In, in_map_iff in Hc as (v & <- & Hv).
  apply list_elem_of_In in Hv. apply elem_of_take in Hv as (i & Hi & _).
  assert (1 <= v <= 9); [|lia].
  eapply valid_permutation_bounds; [done|]. by eapply list_elem_of_lookup_2.
Qed.

(** Frame [k] as the loop renders it has the cells visited so far as
    its revealed cells. *)
Lemma painted_revealed_in (src : Image) (perm : list Z) (k : nat) :
  well_formed src -> valid_permutation perm ->
  revealed_in src (Root.get_grid_coordinates (width src) (height src))
    (painted src (width src) (height src)
       (map (box_of (Root.get_grid_coordinates (width src) (height src)))
          (take k perm)))
    (revealed_set perm k).
Proof.
  intros Hwf Hvalid. pose proof Hwf as (Hw & Hh & _).
  split; [intros c; by apply revealed_set_bounds|].
  split; [by destruct src as [m [w h] o r]|].
  intros x y Hx Hy. rewrite pixel_at_painted by done.
  pose proof (painted_boxes_revealed (width src) (height src) perm Hw Hh Hvalid k x y)
    as Hrev.
  rewrite <- in_cells_revealed_at in Hrev.
  destruct (existsb _ _).
  - split; [done|]. intros Hnot. destruct Hnot. by apply Hrev.
  - split; [|done]. intros Hyes. apply Hrev in Hyes. discriminate.
Qed.

(** In an image of 3 x 3 at least every cell holds a point. *)
Lemma cell_point (w h c : Z) (b : box) :
  3 <= w -> 3 <= h -> 0 <= c <= 8 ->
  Root.get_grid_coordinates w h !! Z.to_nat c = Some b ->
  exists x y, in_box b x y /\ 0 <= x < w /\ 0 <= y < h.
Proof.
  intros Hw Hh Hc Hb. rewrite grid_cells in Hb.
  pose proof (div3_bounds w). pose proof (div3_bounds h).
  destruct (Z.to_nat c) as [|[|[|[|[|[|[|[|[|n]]]]]]]]]; try discriminate Hb;
    apply (inj Some) in Hb; subst b;
    match goal with
    | |- exists x y, in_box (cell _ _ ?row ?col) x y /\ _ =>
        exists (col * (w / 3)), (row * (h / 3))
    end;
    rewrite in_cell;
    change (0 <? 2) with true; change (1 <? 2) with true;
    change (2 <? 2) with false; cbv iota; lia.
Qed.

(** On a telling source a frame has one set of revealed cells at most. *)
Lemma revealed_in_subseteq (src fr : Image) (cs ds : gset Z) :
  telling src ->
  revealed_in src (Root.get_grid_coordinates (width src) (height src)) fr cs ->
  revealed_in src (Root.get_grid_coordinates (width src) (height src)) fr ds ->
  cs ⊆ ds.
Proof.
  intros (Hw & Hh & Hcolour) (Hcs & _ & Hshown) (_ & _ & Hshown') c Hc.
  destruct (decide (c ∈ ds)) as [|Hnot]; [done|]. exfalso.
  pose proof (Hcs c Hc) as Hb.
  destruct (lookup_lt_is_Some_2 (Root.get_grid_coordinates (width src) (height src))
              (Z.to_nat c)) as [b Hg].
  { rewrite grid_length. lia. }
  destruct (cell_point _ _ c b Hw Hh Hb Hg) as (x & y & Hin & Hx & Hy).
  destruct (Hshown x y Hx Hy) as [Hsrc _]. destruct (Hshown' x y Hx Hy) as [_ Hgray].
  apply (Hcolour x y Hx Hy). rewrite <- Hsrc.
  - apply Hgray. intros (c' & b' & Hc' & Hc0 & Hg' & Hin').
    assert (Z.to_nat c' <> Z.to_nat c) as Hne.
    { intros Heq. apply Hnot. by replace c with c' by lia. }
    exact (grid_disjoint _ _ _ _ _ _ x y Hg' Hg Hne Hin' Hin).
  - exists c, b. split; [done|]. split; [lia|]. by split.
Qed.

Lemma revealed_in_unique (src fr : Image) (cs ds : gset Z) :
  telling src ->
  revealed_in src (Root.get_grid_coordinates (width src) (height src)) fr cs ->
  revealed_in src (Root.get_grid_coordinates (width src) (height src)) fr ds ->
  cs = ds.
Proof.
  intros Htell Hcs Hds. apply set_eq. intros c.
  split; by eapply revealed_in_subseteq.
Qed.

(** C3. For every (well-formed) source image, every valid permutation
    and every k in 0..8, take frames k and k+1 of the ten frames that
    the frame loop renders. The set of revealed cells of frame k - the
    cells inside which the frame shows the source, every other point
    being gray - is [revealed_set perm k], the cells of the first k
    entries, and that of frame k+1 is [revealed_set perm (k+1)]; on a
    source where it can be told (no empty cell, no gray pixel) a frame
    has no other set of revealed cells. The set of frame k is a strict
    subset of the set of frame k+1, and the latter is the former plus
    exactly one cell, which is not in the former; the sets have k and
    k+1 cells. *)
Theorem reveal_strictly_monotone (src : Image) (perm : list Z) (k : nat) :
  well_formed src -> valid_permutation perm -> (k <= 8)%nat ->
  exists frames a b,
    Root.render_frames src (width src) (height src)
      (Root.get_grid_coordinates (width src) (height src)) perm = Val frames /\
    frames !! k = Some a /\ frames !! S k = Some b /\
    revealed_in src (Root.get_grid_coordinates (width src) (height src)) a
      (revealed_set perm k) /\
    revealed_in src (Root.get_grid_coordinates (width src) (height src)) b
      (revealed_set perm (S k)) /\
    (telling src -> forall cells,
       (revealed_in src (Root.get_grid_coordinates (width src) (height src)) a cells ->
        cells = revealed_set perm k) /\
       (revealed_in src (Root.get_grid_coordinates (width src) (height src)) b cells ->
        cells = revealed_set perm (S k))) /\
    (revealed_set perm k ⊂ revealed_set perm (S k)) /\
    (exists c, 0 <= c <= 8 /\ (c ∉ revealed_set perm k) /\
               revealed_set perm (S k) = revealed_set perm k ∪ {[c]}) /\
    base.size (revealed_set perm k) = k /\ base.size (revealed_set perm (S k)) = S k.
Proof.
  intros Hwf Hvalid Hk. pose proof Hwf as (Hw & Hh & _).
  pose proof (painted_revealed_in src perm k Hwf Hvalid) as Ha.
  pose proof (painted_revealed_in src perm (S k) Hwf Hvalid) as Hb.
  eexists _, _, _.
  split; [by apply render_frames_closed_form|].
  split; [apply expected_frames_lookup; lia|].
  split; [apply expected_frames_lookup; lia|].
  split; [exact Ha|]. split; [exact Hb|]. split.
  - intros Htell cells. split; intros Hcells.
    + by apply (revealed_in_unique src _ _ _ Htell Hcells).
    + by apply (revealed_in_unique src _ _ _ Htell Hcells).
  - by apply revealed_set_step.
Qed.

Lemma tile_image_telling : telling tile_image.
Proof.
  split; [by vm_compute|]. split; [by vm_compute|].
  change (width tile_image) with 9. change (height tile_image) with 9.
  intros x y Hx Hy. unfold tile_image. rewrite pixel_at_raster by done.
  intros [= Hred _ _]. lia.
Qed.

Lemma reveal_strictly_monotone_witness :
  well_formed tile_image /\ valid_permutation [9; 8; 7; 6; 5; 4; 3; 2; 1] /\
  (3 <= 8)%nat /\ telling tile_image /\
  exists frames a b,
    Root.render_frames tile_image 9 9 (Root.get_grid_coordinates 9 9)
      [9; 8; 7; 6; 5; 4; 3; 2; 1] = Val frames /\
    frames !! 3%nat = Some a /\ frames !! 4%nat = Some b /\
    revealed_in tile_image (Root.get_grid_coordinates 9 9) a
      (revealed_set [9; 8; 7; 6; 5; 4; 3; 2; 1] 3) /\
    revealed_in tile_image (Root.get_grid_coordinates 9 9) b
      (revealed_set [9; 8; 7; 6; 5; 4; 3; 2; 1] 4) /\
    (forall cells,
       revealed_in tile_image (Root.get_grid_coordinates 9 9) a cells ->
       cells = revealed_set [9; 8; 7; 6; 5; 4; 3; 2; 1] 3) /\
    (revealed_set [9; 8; 7; 6; 5; 4; 3; 2; 1] 3
     ⊂ revealed_set [9; 8; 7; 6; 5; 4; 3; 2; 1] 4).
Proof.
  assert (valid_permutation [9; 8; 7; 6; 5; 4; 3; 2; 1]) as Hvalid
    by (apply valid_permutation_decide; vm_compute; reflexivity).
  assert (3 <= 8)%nat as Hk by lia.
  split; [apply tile_image_well_formed|]. split; [exact Hvalid|].
  split; [exact Hk|]. split; [apply tile_image_telling|].
  destruct (reveal_strictly_monotone tile_image [9; 8; 7; 6; 5; 4; 3; 2; 1] 3
              tile_image_well_formed Hvalid Hk)
    as (frames & a & b & Hrun & Hka & Hkb & Ha & Hb & Honly & Hstrict & _).
  exists frames, a, b.
  split; [exact Hrun|]. split; [exact Hka|]. split; [exact Hkb|].
  split; [exact Ha|]. split; [exact Hb|]. split; [|exact Hstrict].
  intros cells. apply (Honly tile_image_telling cells).
Defined.

End Reveal.

Section Lookups.

(** C10. For every permutation the validator accepts, every lookup of
    the renderer is in bounds: in frame k (1..9), for each i in 0..k-1,
    [permutation[i]] exists and [permutation[i] - 1] lies in 0..8, so
    the lookup in the nine rectangles succeeds at that very index
    (whatever the image size); and within one frame no cell is pasted
    twice: the inner loop pastes the cells [revealed_cells], which has
    no duplicates. *)
Theorem lookups_in_bounds (s : string) (w w' : World) (perm : list Z) :
  Root.validate_permutation s w = (Done perm, w') ->
  (forall k i : Z, 1 <= k <= 9 -> 0 <= i < k ->
     exists v, getitem perm i = Val v /\ perm !! Z.to_nat i = Some v /\
               0 <= v - 1 <= 8 /\
               forall width height, exists b,
                 getitem (Root.get_grid_coordinates width height) (v - 1) = Val b /\
                 Root.get_grid_coordinates width height !! Z.to_nat (v - 1) = Some b) /\
  (forall (k : nat) src grid frame, (k <= 9)%nat ->
     for_each (range 0 (Z.of_nat k)) (Root.reveal src grid perm) frame
     = for_each (revealed_cells perm k) (paste_cell src grid) frame) /\
  (forall k : nat, NoDup (revealed_cells perm k)).
Proof.
  intros Hrun. apply Root_validate_Done in Hrun as (_ & _ & Hvalid).
  pose proof Hvalid as [Hlen _].
  split; [|split].
  - intros k i Hk Hi.
    destruct (lookup_lt_is_Some_2 perm (Z.to_nat i)) as [v Hv]; [lia|].
    assert (1 <= v <= 9) as Hb.
    { eapply valid_permutation_bounds; [done|]. by eapply list_elem_of_lookup_2. }
    exists v. split; [apply getitem_lookup; [lia|done]|]. split; [done|]. split; [lia|].
    intros width height.
    destruct (lookup_lt_is_Some_2 (Root.get_grid_coordinates width height)
                (Z.to_nat (v - 1))) as [b Hg].
    { rewrite grid_length. lia. }
    exists b. split; [apply getitem_lookup; [lia|done]|done].
  - intros k src grid frame Hk. apply inner_loop_visits. lia.
  - intros k. by apply revealed_cells_NoDup.
Qed.

Lemma lookups_in_bounds_witness :
  Root.validate_permutation "314159265" empty_world
    = (Exit 1, printed (ErrorParsingPermutation
                          (ValueError "Permutation must contain numbers 1-9 exactly once each"))
                 empty_world) /\
  Root.validate_permutation "392715486" empty_world
    = (Done [3; 9; 2; 7; 1; 5; 4; 8; 6], empty_world) /\
  NoDup (revealed_cells [3; 9; 2; 7; 1; 5; 4; 8; 6] 9).
Proof.
  split; [vm_compute; reflexivity|]. split; [vm_compute; reflexivity|].
  apply (lookups_in_bounds "392715486" empty_world empty_world).
  vm_compute. reflexivity.
Defined.

End Lookups.
(** * Whole runs *)

Section Runs.

Lemma render_frames_same : Pkg.render_frames = Root.render_frames.
Proof. reflexivity. Qed.

Lemma grid_same : Pkg.get_grid_coordinates = Root.get_grid_coordinates.
Proof. reflexivity. Qed.

(** A successful rendering with a valid permutation is the closed form;
    in particular it has ten frames. *)
Lemma rendered_Val (src : Image) (perm : list Z) (frames : list Image) :
  valid_permutation perm ->
  rendered src perm = Val frames ->
  0 <= width src /\ 0 <= height src /\
  frames = expected_frames src (width src) (height src)
             (Root.get_grid_coordinates (width src) (height src)) perm.
Proof.
  intros Hvalid Hrun. unfold rendered in Hrun.
  assert (0 <= width src /\ 0 <= height src) as [Hw Hh].
  { unfold Root.render_frames, Root.create_gray_frame, new in Hrun.
    destruct (Z.ltb_spec (width src) 0), (Z.ltb_spec (height src) 0);
      try discriminate Hrun. lia. }
  rewrite render_frames_closed_form in Hrun by done.
  injection Hrun as <-. done.
Qed.

Lemma expected_frames_first src w h grid perm :
  exists first rest,
    expected_frames src w h grid perm = first :: rest /\ length rest = 9%nat.
Proof. eexists _, _. split; reflexivity. Qed.

(** How [create_unveil_gif] of [src/gif_unveil.py] runs. *)
Lemma Root_create_run pf path perm out d w :
  Root.create_unveil_gif pf path perm out d w =
  let w1 := log (OpenCall path) w in
  match opened w path with
  | Raised e => failed e w1
  | Val im =>
      match rendered (Root_loaded im) perm with
      | Raised e => failed e w1
      | Val frames =>
          match Root.frame_duration_ms d frames with
          | Raised e => failed e w1
          | Val ms =>
              match getitem frames 0 with
              | Raised e => failed e w1
              | Val first => saved pf out (first :: drop 1 frames) ms None w1
              end
          end
      end
  end.
Proof.
  unfold Root.create_unveil_gif, try_except, opened, rendered, saved, failed.
  unfold mbind, io_bind, Image_open. cbv zeta.
  destruct (files w !! path) as [[im| | |]|]; try reflexivity.
  fold (Root_loaded im). unfold width, height.
  destruct (size (Root_loaded im)) as [wd ht]. cbn [fst snd lift].
  destruct (Root.render_frames _ _ _ _ _) as [frames|e]; cbn [lift]; [|reflexivity].
  destruct (Root.frame_duration_ms d frames) as [ms|e]; cbn [lift]; [|reflexivity].
  destruct (getitem frames 0) as [first|e]; cbn [lift]; [|reflexivity].
  unfold Image_save. destruct (write_fate pf out); reflexivity.
Qed.

(** How [create_unveil_gif] of [src/gifboxes/gif_unveil.py] runs. *)
Lemma Pkg_create_run pf path perm out w :
  Pkg.create_unveil_gif pf path perm out w =
  let w1 := log (OpenCall path) w in
  match opened w path with
  | Raised e => failed e w1
  | Val im =>
      match rendered (Pkg_loaded im) perm with
      | Raised e => failed e w1
      | Val frames =>
          match getitem frames 0 with
          | Raised e => failed e w1
          | Val first => saved pf out (first :: drop 1 frames) 500 (Some 0) w1
          end
      end
  end.
Proof.
  unfold Pkg.create_unveil_gif, try_except, opened, rendered, saved, failed.
  unfold mbind, io_bind, Image_open. cbv zeta.
  destruct (files w !! path) as [[im| | |]|]; try reflexivity.
  fold (Pkg_loaded im). unfold width, height.
  destruct (size (Pkg_loaded im)) as [wd ht]. cbn [fst snd lift].
  change Pkg.render_frames with Root.render_frames.
  change Pkg.get_grid_coordinates with Root.get_grid_coordinates.
  destruct (Root.render_frames _ _ _ _ _) as [frames|e]; cbn [lift]; [|reflexivity].
  destruct (getitem frames 0) as [first|e]; cbn [lift]; [|reflexivity].
  unfold Image_save. destruct (write_fate pf out); reflexivity.
Qed.

Lemma Root_validate_run s w :
  Root.validate_permutation s w =
  match Root.checked_permutation s with
  | Val l => (Done l, w)
  | Raised e => (Exit 1, printed (ErrorParsingPermutation e) w)
  end.
Proof.
  apply (validate_run Root.parse_permutation); [apply Root_parse_raises|done|done].
Qed.

Lemma Pkg_validate_run s w :
  Pkg.validate_permutation s w =
  match Pkg.checked_permutation s with
  | Val l => (Done l, w)
  | Raised e => (Exit 1, printed (ErrorParsingPermutation e) w)
  end.
Proof.
  apply (validate_run Pkg.parse_permutation); [apply Pkg_parse_raises|done|done].
Qed.

Lemma checked_of_Val inv perm :
  checked_of inv = Val perm <->
  parser_of inv (permutation_of inv) = Val perm /\ valid_permutation perm.
Proof.
  destruct inv as [args|args]; cbn.
  - by apply (checked_Val Root.parse_permutation Root.checked_permutation).
  - by apply (checked_Val Pkg.parse_permutation Pkg.checked_permutation).
Qed.

Lemma checked_of_invalid inv :
  invalid_for (parser_of inv) (permutation_of inv) ->
  exists e, checked_of inv = Raised e.
Proof.
  intros Hbad. destruct (checked_of inv) as [perm|e] eqn:Hc; [|by exists e].
  apply checked_of_Val in Hc as [Hp Hv]. by destruct (Hbad perm Hp).
Qed.

(** How a run goes, step by step. *)
Lemma run_table pf inv w :
  run pf inv w =
  if bool_decide (is_Some (files w !! image_of inv)) then
    match output_of pf inv with
    | Raised e => (Crash e, w)
    | Val out =>
        match checked_of inv with
        | Raised e => (Exit 1, printed (ErrorParsingPermutation e) w)
        | Val perm =>
            let w1 := log (OpenCall (image_of inv)) w in
            match opened w (image_of inv) with
            | Raised e => failed e w1
            | Val im =>
                match rendered (loaded_of inv im) perm with
                | Raised e => failed e w1
                | Val frames =>
                    match encoding_of inv frames with
                    | Raised e => failed e w1
                    | Val (ms, loop) =>
                        match getitem frames 0 with
                        | Raised e => failed e w1
                        | Val first => saved pf out (first :: drop 1 frames) ms loop w1
                        end
                    end
                end
            end
        end
    end
  else (Exit 1, printed (ImageNotFound (image_of inv)) w).
Proof.
  destruct inv as [args|args]; cbn [run image_of output_of checked_of loaded_of encoding_of].
  - unfold Root.main, mbind at 1 2 3 4, io_bind, path_exists.
    destruct (bool_decide _); cbn [negb]; [|reflexivity].
    cbn [mret io_ret].
    assert (forall out,
      (let (o, w') := Root.validate_permutation (Root.permutation args) w in
       match o with
       | Done perm =>
           Root.create_unveil_gif pf (Root.image args) perm out (Root.duration args) w'
       | Exit n => (Exit n, w')
       | Crash e => (Crash e, w')
       end) =
      match Root.checked_permutation (Root.permutation args) with
      | Raised e => (Exit 1, printed (ErrorParsingPermutation e) w)
      | Val perm =>
          let w1 := log (OpenCall (Root.image args)) w in
          match opened w (Root.image args) with
          | Raised e => failed e w1
          | Val im =>
              match rendered (Root_loaded im) perm with
              | Raised e => failed e w1
              | Val frames =>
                  match
                    ms ← Root.frame_duration_ms (Root.duration args) frames; Val (ms, None)
                  with
                  | Raised e => failed e w1
                  | Val (ms, loop) =>
                      match getitem frames 0 with
                      | Raised e => failed e w1
                      | Val first => saved pf out (first :: drop 1 frames) ms loop w1
                      end
                  end
              end
          end
      end) as Hrest.
    { intros out. rewrite Root_validate_run.
      destruct (Root.checked_permutation _) as [perm|e]; [|reflexivity].
      rewrite Root_create_run. cbv zeta.
      destruct (opened w _) as [im|e]; [|reflexivity].
      destruct (rendered _ perm) as [frames|e]; [|reflexivity].
      by destruct (Root.frame_duration_ms _ frames) as [ms|e]. }
    destruct (Root.output args) as [o|]; cbn [mret io_ret lift].
    + apply Hrest.
    + unfold lift. destruct (with_suffix_gif pf _) as [out|e]; [apply Hrest|reflexivity].
  - unfold Pkg.main, mbind at 1 2 3, io_bind, path_exists.
    destruct (bool_decide _); cbn [negb]; [|reflexivity].
    cbn [mret io_ret]. rewrite Pkg_validate_run.
    destruct (Pkg.checked_permutation _) as [perm|e]; [|reflexivity].
    rewrite Pkg_create_run. reflexivity.
Qed.

(** Every run falls in one of the cases. *)
Lemma run_classified pf inv w : run_case pf inv w (run pf inv w).
Proof.
  rewrite run_table.
  case_bool_decide as Hfound.
  2:{ apply ImageMissing. destruct (files w !! image_of inv) eqn:Hl; [|done].
      destruct Hfound. by eexists. }
  destruct (output_of pf inv) as [out|e] eqn:Hout; [|by apply OutputUnknown].
  destruct (checked_of inv) as [perm|e] eqn:Hchecked;
    [|by eapply PermutationRejected].
  pose proof Hchecked as [_ Hvalid]%checked_of_Val. cbv zeta.
  destruct (opened w (image_of inv)) as [im|e] eqn:Hopen; [|by eapply NotDecoded].
  destruct (rendered (loaded_of inv im) perm) as [frames|e] eqn:Hr;
    [|by eapply NotRendered].
  pose proof Hr as (_ & _ & Hframes)%rendered_Val; [|done].
  destruct (encoding_of inv frames) as [[ms loop]|e] eqn:Henc; [|by eapply NoDuration].
  destruct (expected_frames_first (loaded_of inv im) (width (loaded_of inv im))
              (height (loaded_of inv im))
              (Root.get_grid_coordinates (width (loaded_of inv im))
                 (height (loaded_of inv im))) perm) as (first & rest & Heq & Hrest).
  rewrite <- Hframes in Heq. subst frames.
  change (getitem (first :: rest) 0) with (Val first). cbn [drop].
  eapply Encoded; try done.
Qed.

End Runs.
(** * Failure handling *)

Section Failures.

(** C8, as amended. Whenever the permutation argument is invalid, the
    run ends with status 1 without any call to the decoder or the
    encoder and without touching a file, so nothing is decoded or
    rendered. The error reported is the permutation error when the
    image path exists and the output path is known; when the image path
    does not exist, the run has already ended on the file-not-found
    error. *)
Theorem invalid_permutation_stops_before_decoding pf inv w :
  invalid_for (parser_of inv) (permutation_of inv) ->
  status (fst (run pf inv w)) = 1 /\
  no_image_work w (snd (run pf inv w)) /\
  (is_Some (files w !! image_of inv) -> (exists out, output_of pf inv = Val out) ->
   reports_invalid_permutation w (run pf inv w)) /\
  (files w !! image_of inv = None ->
   run pf inv w = (Exit 1, printed (ImageNotFound (image_of inv)) w)).
Proof.
  intros [e He]%checked_of_invalid. rewrite run_table, He.
  case_bool_decide as Hfound.
  - destruct (output_of pf inv) as [out|e'].
    + repeat split; [by exists e|]. intros Hnone. rewrite Hnone in Hfound.
      by destruct Hfound.
    + repeat split.
      * by intros _ [out [=]].
      * intros Hnone. rewrite Hnone in Hfound. by destruct Hfound.
  - repeat split. intros Hsome. by destruct Hfound.
Qed.

Lemma invalid_permutation_stops_before_decoding_witness :
  invalid_for Root.parse_permutation "123456780" /\
  status (fst (Root.main (mkPlatform (fun p => Val p) (fun _ => Written))
                 (Root.mkArgs "in.png" "123456780" None (S754_zero false))
                 (mkWorld {["in.png" := OtherFile]} [] []))) = 1.
Proof.
  assert (invalid_for Root.parse_permutation "123456780") as Hbad.
  { intros l [= <-] [_ Hset]. vm_compute in Hset. discriminate Hset. }
  split; [exact Hbad|].
  apply (invalid_permutation_stops_before_decoding
           (mkPlatform (fun p => Val p) (fun _ => Written))
           (RootRun (Root.mkArgs "in.png" "123456780" None (S754_zero false)))
           (mkWorld {["in.png" := OtherFile]} [] [])).
  exact Hbad.
Defined.

(** C8 as stated fails when the image path does not exist: the run ends
    on the file-not-found error and the permutation is never looked at. *)
Lemma missing_image_reported_first :
  Root.main (mkPlatform (fun p => Val p) (fun _ => Written))
    (Root.mkArgs "missing.png" "12345678" (Some "out.gif"%string) (S754_zero false))
    empty_world
  = (Exit 1, printed (ImageNotFound "missing.png") empty_world) /\
  ~ invalid_permutation_always_reported.
Proof.
  split; [reflexivity|].
  intros Hclaim.
  destruct (Hclaim (mkPlatform (fun p => Val p) (fun _ => Written))
              (RootRun (Root.mkArgs "missing.png" "12345678"
                          (Some "out.gif"%string) (S754_zero false)))
              empty_world) as [e He].
  - intros l [= <-] [Hlen _]. discriminate Hlen.
  - discriminate He.
Qed.

Lemma failed_fails pf w w1 e :
  stdout w1 = stdout w -> files w1 = files w -> fails pf w (failed e w1).
Proof.
  intros Hout Hfiles. unfold fails, failed. cbn. split; [done|]. split.
  - left. exists (ErrorCreatingGIF e). by rewrite Hout.
  - by left.
Qed.

(** C5, as amended. Every run (of [main], once the command line is
    parsed) either succeeds - status 0, the success line printed, and
    as only change to the files the animation at the output path that
    the encoder wrote from the ten rendered frames, the script's
    duration and loop count - or fails: then the status is not zero
    (it is 1) and a diagnostic is reported (one error line printed by
    the script, or the traceback of an exception that reached the top
    level). The files are as they were if the failing step comes before
    the encoder or the encoder could not open the output path. The
    script writes straight to the output path and does no clean-up of
    its own: when the write of the encoder breaks off, a partial file
    is left at the output path, whether or not a file was there
    before. *)
Theorem run_succeeds_or_fails pf inv w :
  (succeeds pf inv w (run pf inv w) /\ status (fst (run pf inv w)) = 0) \/
  (fails pf w (run pf inv w) /\ status (fst (run pf inv w)) <> 0).
Proof.
  assert (forall r, fails pf w r -> fails pf w r /\ status (fst r) <> 0) as Hnonzero.
  { intros r Hf. split; [done|]. destruct Hf as [-> _]. lia. }
  destruct (run_classified pf inv w)
    as [Hnone|e Hfound Hout|out e Hfound Hout Hperm|out perm e Hout Hperm Hopen
        |out perm im e Hout Hperm Hopen Hr|out perm im frames e Hout Hperm Hopen Hr Henc
        |out perm im frames ms loop Hout Hperm Hopen Hr Hlen Henc];
    try (right; apply Hnonzero; by apply failed_fails).
  - right. apply Hnonzero. unfold fails. cbn. split; [done|]. split; [|by left].
    left. by exists (ImageNotFound (image_of inv)).
  - right. apply Hnonzero. unfold fails. cbn. split; [done|]. split; [|by left].
    right. by exists e.
  - right. apply Hnonzero. unfold fails. cbn. split; [done|]. split; [|by left].
    left. by exists (ErrorParsingPermutation e).
  - unfold saved. destruct (write_fate pf out) as [|e|e] eqn:Hfate.
    + left. split; [|done]. by exists out, perm, im, frames, ms, loop.
    + right. apply Hnonzero. by apply failed_fails.
    + right. apply Hnonzero. unfold fails, failed. cbn. split; [done|]. split.
      * left. by exists (ErrorCreatingGIF e).
      * right. exists out, frames, ms, loop, e.
        split; [done|]. split; [|done].
        apply elem_of_app. right. apply elem_of_cons. by left.
Qed.

(** C5 as stated fails when the write of the encoder breaks off: the
    run ends with status 1, yet an output file is produced, a partial
    one, at an output path that held no file before. *)
Lemma broken_write_leaves_partial_file :
  let pf := mkPlatform (fun p => Val p)
              (fun _ => Broken (OSError "No space left on device")) in
  let args := Root.mkArgs "in.png" "123456789" (Some "out.gif"%string) (S754_zero false) in
  let w := mkWorld {[ "in.png" := ImageFile tile_image ]} [] [] in
  status (fst (Root.main pf args w)) = 1 /\
  files w !! "out.gif" = None /\
  files (snd (Root.main pf args w)) !! "out.gif" = Some PartialFile /\
  ~ all_or_nothing.
Proof.
  intros pf args w.
  assert (status (fst (Root.main pf args w)) = 1) as Hstatus by (vm_compute; reflexivity).
  assert (files (snd (Root.main pf args w)) !! "out.gif" = Some PartialFile) as Hleft
    by (vm_compute; reflexivity).
  split; [done|]. split; [reflexivity|]. split; [done|].
  intros Hclaim.
  specialize (Hclaim pf (RootRun args) w). cbn [run] in Hclaim.
  rewrite Hclaim in Hleft by (rewrite Hstatus; lia).
  vm_compute in Hleft. discriminate Hleft.
Qed.

End Failures.
(** * What the encoder is handed *)

Section Encoding.

Lemma int_of_float_rounds (x : float) (z : Z) :
  int_of_float x = Val z -> rounds_to x z.
Proof.
  destruct x as [s|s| |s m e]; cbn; try discriminate.
  - by intros [= <-].
  - intros [= <-].
    destruct (Z.leb_spec 0 e) as [He|He].
    + exists (Z.pos m * 2 ^ e). split; [|done].
      pose proof (Z.pow_pos_nonneg 2 e). lia.
    + exists (Z.pos m / 2 ^ (- e)).
      assert (0 < 2 ^ (- e)) as Hpow by (apply Z.pow_pos_nonneg; lia).
      split; [apply Z.div_pos; lia|]. split; [done|].
      pose proof (Z.mul_div_le (Z.pos m) (2 ^ (- e)) Hpow).
      pose proof (Z.mul_succ_div_gt (Z.pos m) (2 ^ (- e)) Hpow). lia.
Qed.

Lemma frame_duration_ten (d : float) (frames : list Image) :
  length frames = 10%nat ->
  Root.frame_duration_ms d frames = int_of_float (per_frame d).
Proof. intros Hlen. unfold Root.frame_duration_ms. rewrite Hlen. reflexivity. Qed.

Lemma new_calls_app (w w' : World) (cs : list call) :
  calls w' = calls w ++ cs -> new_calls w w' = cs.
Proof. intros Hcalls. unfold new_calls. by rewrite Hcalls, drop_app_length. Qed.

(** The new calls of a run, case by case. *)
Lemma run_calls pf inv w :
  new_calls w (snd (run pf inv w)) = [] \/
  new_calls w (snd (run pf inv w)) = [OpenCall (image_of inv)] \/
  exists out perm im frames ms loop,
    new_calls w (snd (run pf inv w))
      = [OpenCall (image_of inv); SaveCall out frames ms loop] /\
    output_of pf inv = Val out /\
    checked_of inv = Val perm /\
    opened w (image_of inv) = Val im /\
    rendered (loaded_of inv im) perm = Val frames /\
    length frames = 10%nat /\
    encoding_of inv frames = Val (ms, loop).
Proof.
  rewrite run_table.
  case_bool_decide as Hfound; [|left; by apply new_calls_app; rewrite app_nil_r].
  destruct (output_of pf inv) as [out|e];
    [|left; by apply new_calls_app; rewrite app_nil_r].
  destruct (checked_of inv) as [perm|e] eqn:Hchecked;
    [|left; by apply new_calls_app; rewrite app_nil_r].
  pose proof Hchecked as [_ Hvalid]%checked_of_Val. cbv zeta.
  destruct (opened w (image_of inv)) as [im|e];
    [|right; left; by apply new_calls_app].
  destruct (rendered (loaded_of inv im) perm) as [frames|e] eqn:Hr;
    [|right; left; by apply new_calls_app].
  pose proof Hr as (_ & _ & Hframes)%rendered_Val; [|done].
  destruct (encoding_of inv frames) as [[ms loop]|e] eqn:Henc;
    [|right; left; by apply new_calls_app].
  destruct (getitem frames 0) as [first|e] eqn:Hfirst;
    [|right; left; by apply new_calls_app].
  right. right. exists out, perm, im, frames, ms, loop.
  assert (first :: drop 1 frames = frames) as ->.
  { rewrite Hframes in Hfirst |- *. by injection Hfirst as <-. }
  split; [|do 4 (split; [done|]); split; [by rewrite Hframes|done]].
  apply new_calls_app. unfold saved.
  destruct (write_fate pf out); cbn; by rewrite <- app_assoc.
Qed.

(** C6. Whenever a run calls the encoder it hands it ten frames and a
    per-frame duration that is, in [src/gifboxes/gif_unveil.py], the
    fixed 500 ms (with loop count 0) and, in [src/gif_unveil.py] (which
    gives no loop count), the float [totalDurationSeconds * 1000 / 10]
    rounded to an integer, the rounding being towards zero. *)
Theorem duration_handed_to_encoder pf inv w out frames ms loop :
  SaveCall out frames ms loop ∈ new_calls w (snd (run pf inv w)) ->
  length frames = 10%nat /\
  match inv with
  | RootRun args =>
      loop = None /\
      int_of_float (per_frame (Root.duration args)) = Val ms /\
      rounds_to (per_frame (Root.duration args)) ms
  | PkgRun _ => ms = 500 /\ loop = Some 0
  end.
Proof.
  intros Hcall.
  destruct (run_calls pf inv w)
    as [Hc|[Hc|(out' & perm & im & frames' & ms' & loop' & Hc & _ & _ & _ & _ & Hlen & Henc)]];
    rewrite Hc in Hcall.
  - by apply elem_of_nil in Hcall.
  - apply elem_of_cons in Hcall as [[=]|Hcall]. by apply elem_of_nil in Hcall.
  - apply elem_of_cons in Hcall as [[=]|Hcall].
    apply elem_of_cons in Hcall as [[= -> -> -> ->]|Hcall]; [|by apply elem_of_nil in Hcall].
    split; [done|]. destruct inv as [args|args]; cbn in Henc.
    + rewrite frame_duration_ten in Henc by done.
      destruct (int_of_float (per_frame (Root.duration args))) as [z|e] eqn:Hz;
        [|discriminate Henc].
      injection Henc as -> ->. split; [done|]. split; [done|].
      by apply int_of_float_rounds.
    + by injection Henc as <- <-.
Qed.

Lemma duration_handed_to_encoder_witness :
  let pf := mkPlatform (fun p => Val p) (fun _ => Written) in
  let args := Root.mkArgs "in.png" "123456789" (Some "out.gif"%string) (as_float 12) in
  let w := mkWorld {[ "in.png" := ImageFile tile_image ]} [] [] in
  let frames := expected_frames tile_image 9 9 (Root.get_grid_coordinates 9 9)
                  [1; 2; 3; 4; 5; 6; 7; 8; 9] in
  SaveCall "out.gif" frames 1200 None ∈ new_calls w (snd (run pf (RootRun args) w)) /\
  length frames = 10%nat /\
  int_of_float (per_frame (as_float 12)) = Val 1200.
Proof.
  intros pf args w frames.
  assert (SaveCall "out.gif" frames 1200 None ∈ new_calls w (snd (run pf (RootRun args) w)))
    as Hcall.
  { vm_compute. apply elem_of_cons. right. apply elem_of_cons. by left. }
  split; [exact Hcall|].
  destruct (duration_handed_to_encoder pf (RootRun args) w _ _ _ _ Hcall)
    as (Hlen & _ & Hms & _).
  split; [exact Hlen|exact Hms].
Defined.

(** Twelve seconds give 1200 ms per frame; 1.999 seconds give 199 ms,
    the integer part of 199.9; the other script hands 500 ms whatever
    the frames. *)
Example duration_examples :
  Root.frame_duration_ms (as_float 12)
    (expected_frames tile_image 9 9 (Root.get_grid_coordinates 9 9) [1; 2; 3; 4; 5; 6; 7; 8; 9])
  = Val 1200 /\
  int_of_float (per_frame float_1_999) = Val 199 /\
  int_of_float (per_frame (SFopp float_1_999)) = Val (-199) /\
  encoding_of (PkgRun (Pkg.mkArgs "in.png" "1,2,3,4,5,6,7,8,9" "output.gif")) []
  = Val (500, Some 0).
Proof. repeat split; vm_compute; reflexivity. Qed.

End Encoding.
(** * The two scripts compared *)

Section Variants.

Lemma expected_frames_getitem src w h grid perm :
  exists first,
    getitem (expected_frames src w h grid perm) 0 = Val first /\
    first :: drop 1 (expected_frames src w h grid perm)
    = expected_frames src w h grid perm.
Proof. eexists. split; reflexivity. Qed.

(** With a valid permutation, [create_unveil_gif] of either script in
    terms of the loaded image. *)
Lemma Root_create_valid pf image perm out d w im :
  valid_permutation perm -> opened w image = Val im ->
  Root.create_unveil_gif pf image perm out d w =
  match rendered (Root_loaded im) perm with
  | Raised e => failed e (log (OpenCall image) w)
  | Val frames =>
      match Root.frame_duration_ms d frames with
      | Raised e => failed e (log (OpenCall image) w)
      | Val ms => saved pf out frames ms None (log (OpenCall image) w)
      end
  end.
Proof.
  intros Hvalid Hopen. rewrite Root_create_run, Hopen. cbv zeta.
  destruct (rendered (Root_loaded im) perm) as [frames|e] eqn:Hr; [|done].
  apply rendered_Val in Hr as (_ & _ & ->); [|done].
  destruct (Root.frame_duration_ms d _) as [ms|e]; [|done].
  destruct (expected_frames_getitem (Root_loaded im) (width (Root_loaded im))
              (height (Root_loaded im))
              (Root.get_grid_coordinates (width (Root_loaded im)) (height (Root_loaded im)))
              perm) as (first & -> & ->).
  reflexivity.
Qed.

Lemma Pkg_create_valid pf image perm out w im :
  valid_permutation perm -> opened w image = Val im ->
  Pkg.create_unveil_gif pf image perm out w =
  match rendered (Pkg_loaded im) perm with
  | Raised e => failed e (log (OpenCall image) w)
  | Val frames => saved pf out frames 500 (Some 0) (log (OpenCall image) w)
  end.
Proof.
  intros Hvalid Hopen. rewrite Pkg_create_run, Hopen. cbv zeta.
  destruct (rendered (Pkg_loaded im) perm) as [frames|e] eqn:Hr; [|done].
  apply rendered_Val in Hr as (_ & _ & ->); [|done].
  destruct (expected_frames_getitem (Pkg_loaded im) (width (Pkg_loaded im))
              (height (Pkg_loaded im))
              (Root.get_grid_coordinates (width (Pkg_loaded im)) (height (Pkg_loaded im)))
              perm) as (first & -> & ->).
  reflexivity.
Qed.

(** C9, as amended. The two scripts compute the same grid partition and
    the same frames from the same loaded image. For the same image
    file and the same valid permutation they hand the encoder the same
    path and the same ten frames - with 500 ms and loop count 0 in
    [src/gifboxes/gif_unveil.py], with the computed duration and no
    loop count in [src/gif_unveil.py] - provided the image carries no
    EXIF orientation to apply: only [src/gif_unveil.py] turns the image
    by that tag before rendering. The accepted string formats differ:
    the digit string and the blank-separated form are read by
    [src/gif_unveil.py] only, the comma-separated form by both. *)
Theorem variants_agree pf w image perm out d im :
  valid_permutation perm -> opened w image = Val im -> exif_transpose im = im ->
  (Pkg.get_grid_coordinates = Root.get_grid_coordinates /\
   Pkg.render_frames = Root.render_frames) /\
  Root_loaded im = Pkg_loaded im /\
  match rendered (Pkg_loaded im) perm with
  | Raised e =>
      Pkg.create_unveil_gif pf image perm out w = failed e (log (OpenCall image) w) /\
      Root.create_unveil_gif pf image perm out d w = failed e (log (OpenCall image) w)
  | Val frames =>
      length frames = 10%nat /\
      Pkg.create_unveil_gif pf image perm out w
        = saved pf out frames 500 (Some 0) (log (OpenCall image) w) /\
      Root.create_unveil_gif pf image perm out d w
        = match Root.frame_duration_ms d frames with
          | Val ms => saved pf out frames ms None (log (OpenCall image) w)
          | Raised e => failed e (log (OpenCall image) w)
          end
  end /\
  (Root.parse_permutation "123456789" = Val [1; 2; 3; 4; 5; 6; 7; 8; 9] /\
   Pkg.parse_permutation "123456789" = Val [123456789] /\
   Root.parse_permutation "1 2 3 4 5 6 7 8 9" = Val [1; 2; 3; 4; 5; 6; 7; 8; 9] /\
   Pkg.parse_permutation "1 2 3 4 5 6 7 8 9" = Raised invalid_literal /\
   Root.parse_permutation "1,2,3,4,5,6,7,8,9" = Val [1; 2; 3; 4; 5; 6; 7; 8; 9] /\
   Pkg.parse_permutation "1,2,3,4,5,6,7,8,9" = Val [1; 2; 3; 4; 5; 6; 7; 8; 9]).
Proof.
  intros Hvalid Hopen Hexif.
  assert (Root_loaded im = Pkg_loaded im) as Hload.
  { unfold Root_loaded, Pkg_loaded. by rewrite Hexif. }
  split; [split; reflexivity|]. split; [done|]. split; [|repeat split].
  rewrite (Root_create_valid _ _ _ _ _ _ im), (Pkg_create_valid _ _ _ _ _ im) by done.
  rewrite Hload.
  destruct (rendered (Pkg_loaded im) perm) as [frames|e] eqn:Hr; [|done].
  split; [|done].
  apply rendered_Val in Hr as (_ & _ & ->); done.
Qed.

Lemma variants_agree_witness :
  let pf := mkPlatform (fun p => Val p) (fun _ => Written) in
  let w := mkWorld {[ "in.png" := ImageFile tile_image ]} [] [] in
  let perm := [9; 8; 7; 6; 5; 4; 3; 2; 1] in
  valid_permutation perm /\ opened w "in.png" = Val tile_image /\
  exif_transpose tile_image = tile_image /\
  Root_loaded tile_image = Pkg_loaded tile_image /\
  frames_handed w (snd (Root.create_unveil_gif pf "in.png" perm "out.gif" (as_float 12) w))
  = frames_handed w (snd (Pkg.create_unveil_gif pf "in.png" perm "out.gif" w)).
Proof.
  intros pf w perm.
  assert (valid_permutation perm) as Hvalid
    by (apply valid_permutation_decide; vm_compute; reflexivity).
  split; [exact Hvalid|]. split; [reflexivity|]. split; [reflexivity|].
  destruct (variants_agree pf w "in.png" perm "out.gif" (as_float 12) tile_image
              Hvalid eq_refl eq_refl) as (_ & Hload & _).
  split; [exact Hload|]. vm_compute. reflexivity.
Defined.

(** C9 as stated fails on an image that carries an EXIF orientation:
    from the 2 x 1 image tagged with orientation 6, [src/gif_unveil.py]
    renders 1 x 2 frames of the turned image and
    [src/gifboxes/gif_unveil.py] renders 2 x 1 frames of the image as
    stored. *)
Lemma exif_orientation_changes_frames :
  let pf := mkPlatform (fun p => Val p) (fun _ => Written) in
  let w := mkWorld {[ "in.jpg" := ImageFile turned_image ]} [] [] in
  let perm := [1; 2; 3; 4; 5; 6; 7; 8; 9] in
  (exists framesR framesP,
     frames_handed w (snd (Root.create_unveil_gif pf "in.jpg" perm "out.gif" (as_float 12) w))
       = [framesR] /\
     frames_handed w (snd (Pkg.create_unveil_gif pf "in.jpg" perm "out.gif" w))
       = [framesP] /\
     rows <$> framesR !! 9%nat = Some [[(255, 0, 0)]; [(0, 0, 255)]] /\
     rows <$> framesP !! 9%nat = Some [[(255, 0, 0); (0, 0, 255)]]) /\
  ~ variants_render_alike.
Proof.
  intros pf w perm.
  assert (valid_permutation perm) as Hvalid
    by (apply valid_permutation_decide; vm_compute; reflexivity).
  split.
  - eexists _, _. split; [vm_compute; reflexivity|]. split; [vm_compute; reflexivity|].
    split; vm_compute; reflexivity.
  - intros Hclaim.
    assert (forall framesR framesP, 
      framesR ∈ frames_handed w
        (snd (Root.create_unveil_gif pf "in.jpg" perm "out.gif" (as_float 12) w)) ->
      framesP ∈ frames_handed w (snd (Pkg.create_unveil_gif pf "in.jpg" perm "out.gif" w)) ->
      size <$> framesR !! 9%nat = size <$> framesP !! 9%nat) as Hsame.
    { intros framesR framesP HR HP.
      by rewrite (Hclaim pf w "in.jpg"%string perm "out.gif"%string (as_float 12)
                    framesR framesP Hvalid HR HP). }
    revert Hsame. vm_compute. intros Hsame.
    specialize (Hsame _ _ (list_elem_of_here _ _) (list_elem_of_here _ _)).
    discriminate Hsame.
Qed.

End Variants.
(** * From the image file to the encoder *)

Section EndToEnd.

Lemma raster_well_formed m o (w h : Z) f :
  0 <= w -> 0 <= h -> well_formed (mkImage m (w, h) o (raster w h f)).
Proof.
  intros Hw Hh. unfold well_formed, width, height. cbn -[raster].
  split; [done|]. split; [done|]. split; [apply raster_length|apply raster_row_length].
Qed.

Lemma transpose_well_formed (im : Image) (method : Transpose) :
  well_formed im -> well_formed (transpose im method).
Proof.
  intros (Hw & Hh & _). unfold transpose.
  destruct method; by apply raster_well_formed.
Qed.

Lemma exif_transpose_well_formed (im : Image) :
  well_formed im -> well_formed (exif_transpose im).
Proof.
  intros Hwf. unfold exif_transpose. cbv zeta.
  destruct (match orientation im with Some 2 => _ | _ => _ end) as [m|]; [|done].
  exact (transpose_well_formed im m Hwf).
Qed.

Lemma convert_well_formed (im : Image) (m : string) :
  well_formed im -> well_formed (convert im m).
Proof. done. Qed.

Lemma loaded_well_formed (inv : invocation) (im : Image) :
  well_formed im -> well_formed (loaded_of inv im).
Proof.
  intros Hwf. destruct inv; cbn; unfold Root_loaded, Pkg_loaded.
  - destruct (negb _); [apply convert_well_formed|]; by apply exif_transpose_well_formed.
  - by destruct (negb _).
Qed.

(** Whenever a run calls the encoder on a well-formed image file, the
    frames it hands over unveil the loaded image in the order of the
    validated permutation. *)
Lemma encoder_gets_unveiling pf inv w out frames ms loop im :
  opened w (image_of inv) = Val im -> well_formed im ->
  SaveCall out frames ms loop ∈ new_calls w (snd (run pf inv w)) ->
  exists perm,
    parser_of inv (permutation_of inv) = Val perm /\
    valid_permutation perm /\
    unveils (loaded_of inv im) perm frames.
Proof.
  intros Hopen Hwf Hcall.
  destruct (run_calls pf inv w)
    as [Hc|[Hc|(out' & perm & im' & frames' & ms' & loop' & Hc & _ & Hperm & Hopen'
                & Hr & _ & _)]];
    rewrite Hc in Hcall.
  - by apply elem_of_nil in Hcall.
  - apply elem_of_cons in Hcall as [[=]|Hcall]. by apply elem_of_nil in Hcall.
  - apply elem_of_cons in Hcall as [[=]|Hcall].
    apply elem_of_cons in Hcall as [[= -> -> -> ->]|Hcall]; [|by apply elem_of_nil in Hcall].
    rewrite Hopen in Hopen'. injection Hopen' as <-.
    apply checked_of_Val in Hperm as [Hparse Hvalid].
    exists perm. split; [done|]. split; [done|].
    destruct (expected_frames_unveil (loaded_of inv im) perm) as (frames2 & Hr2 & Hunveils);
      [by apply loaded_well_formed|done|].
    unfold rendered in Hr. rewrite Hr in Hr2. by injection Hr2 as <-.
Qed.

End EndToEnd.
(** * More on the partitioner *)

Section PartitionMore.

Ltac decide_columns :=
  cbn [Nat.eqb];
  change (Z.of_nat 0) with 0; change (Z.of_nat 1) with 1; change (Z.of_nat 2) with 2;
  change (0 <? 2) with true; change (1 <? 2) with true;
  change (2 <? 2) with false; cbv iota.

Lemma grid_lookup_cell width height (r c : nat) :
  (r < 3)%nat -> (c < 3)%nat ->
  Root.get_grid_coordinates width height !! (3 * r + c)%nat
  = Some (cell width height (Z.of_nat r) (Z.of_nat c)).
Proof. apply grid_row_major. Qed.

(** The first two columns are [width // 3] wide and the last one takes
    the remainder on top, [width // 3 + width % 3]; the same for the
    rows. So two cells differ by at most 2 in width and in height. *)
Theorem cell_sizes (width height : Z) (r c : nat) (b : box) :
  (r < 3)%nat -> (c < 3)%nat ->
  Root.get_grid_coordinates width height !! (3 * r + c)%nat = Some b ->
  box_width b = width / 3 + (if (c =? 2)%nat then width mod 3 else 0) /\
  box_height b = height / 3 + (if (r =? 2)%nat then height mod 3 else 0) /\
  0 <= width mod 3 <= 2 /\ 0 <= height mod 3 <= 2.
Proof.
  intros Hr Hc Hb. rewrite grid_lookup_cell in Hb by done. injection Hb as <-.
  pose proof (Z.div_mod width 3 ltac:(lia)). pose proof (Z.mod_pos_bound width 3 ltac:(lia)).
  pose proof (Z.div_mod height 3 ltac:(lia)). pose proof (Z.mod_pos_bound height 3 ltac:(lia)).
  destruct r as [|[|[|r]]]; [| | |exfalso; lia];
    (destruct c as [|[|[|c]]]; [| | |exfalso; lia]);
    unfold cell, box_width, box_height; decide_columns; lia.
Qed.

Lemma cell_sizes_witness :
  Root.get_grid_coordinates 11 10 !! (3 * 1 + 2)%nat = Some (6, 3, 11, 6) /\
  box_width (6, 3, 11, 6) = 11 / 3 + 11 mod 3.
Proof.
  split; [reflexivity|].
  apply (cell_sizes 11 10 1 2 (6, 3, 11, 6)); [lia|lia|reflexivity].
Defined.

(** The signed areas of the nine boxes add up to [width * height],
    whatever the integers given. *)
Theorem cell_areas_add_up (width height : Z) :
  total (map area (Root.get_grid_coordinates width height)) = width * height.
Proof.
  rewrite grid_cells. unfold cell.
  change (0 <? 2) with true. change (1 <? 2) with true. change (2 <? 2) with false.
  cbv [map total foldr area box_width box_height]. ring.
Qed.

(** Every cell has a positive width and a positive height exactly when
    the image is at least 3 x 3. *)
Theorem cells_nonempty_iff (width height : Z) :
  (forall b, b ∈ Root.get_grid_coordinates width height ->
             0 < box_width b /\ 0 < box_height b)
  <-> 3 <= width /\ 3 <= height.
Proof.
  pose proof (div3_bounds width). pose proof (div3_bounds height).
  rewrite grid_cells. split.
  - intros Hall.
    destruct (Hall (cell width height 0 0)) as [Hw0 Hh0];
      [apply elem_of_cons; by left|].
    unfold cell, box_width, box_height in Hw0, Hh0.
    change (0 <? 2) with true in Hw0, Hh0. cbv iota in Hw0, Hh0. lia.
  - intros [Hw Hh] b Hb.
    repeat (apply elem_of_cons in Hb as [->|Hb]); [..|by apply elem_of_nil in Hb];
      unfold cell, box_width, box_height; decide_columns; lia.
Qed.

Lemma grid_within (width height : Z) (b : box) :
  0 <= width -> 0 <= height ->
  b ∈ Root.get_grid_coordinates width height -> within width height b.
Proof.
  intros Hw Hh Hb.
  pose proof (div3_bounds width). pose proof (div3_bounds height).
  rewrite grid_cells in Hb.
  repeat (apply elem_of_cons in Hb as [->|Hb]); [..|by apply elem_of_nil in Hb];
    unfold cell, within; decide_columns; lia.
Qed.

(** For an image size (non-negative), every box has its corners in
    order and lies within the image: [crop] never reads outside the
    source. *)
Theorem cells_within_image (width height : Z) (b : box) :
  0 <= width -> 0 <= height ->
  b ∈ Root.get_grid_coordinates width height -> within width height b.
Proof. apply grid_within. Qed.

Lemma cells_within_image_witness :
  0 <= 7 /\ 0 <= 2 /\ (4, 0, 7, 0) ∈ Root.get_grid_coordinates 7 2 /\
  within 7 2 (4, 0, 7, 0).
Proof.
  assert ((4, 0, 7, 0) ∈ Root.get_grid_coordinates 7 2) as Hin.
  { apply list_elem_of_lookup. by exists 2%nat. }
  split; [lia|]. split; [lia|]. split; [exact Hin|].
  apply (cells_within_image 7 2 (4, 0, 7, 0)); [lia|lia|exact Hin].
Defined.

End PartitionMore.
(** * More on the renderer *)

Section RenderAnyList.

Variables (src : Image) (w h : Z) (perm : list Z).
Hypothesis w_nonneg : 0 <= w.
Hypothesis h_nonneg : 0 <= h.

Let grid := Root.get_grid_coordinates w h.

Lemma getitem_grid_usable (v : Z) :
  usable v = true ->
  exists x1 y1 x2 y2,
    getitem grid (v - 1) = Val (x1, y1, x2, y2) /\
    indexed grid v = (x1, y1, x2, y2) /\ x1 <= x2 /\ y1 <= y2.
Proof using w_nonneg h_nonneg.
  intros [Hlo Hhi]%andb_true_iff. apply Z.leb_le in Hlo, Hhi.
  set (j := if v - 1 <? 0 then v - 1 + 9 else v - 1).
  assert (0 <= j < 9) as Hj by (unfold j; destruct (Z.ltb_spec (v - 1) 0); lia).
  destruct (lookup_lt_is_Some_2 grid (Z.to_nat j)) as [[[[x1 y1] x2] y2] Hb].
  { unfold grid. rewrite grid_length. lia. }
  assert (getitem grid (v - 1) = Val (x1, y1, x2, y2)) as Hget.
  { unfold getitem. unfold grid in Hb |- *. rewrite grid_length.
    change (Z.of_nat 9) with 9. fold j.
    destruct (Z.leb_spec 0 j); [|lia]. destruct (Z.ltb_spec j 9); [|lia].
    cbn [andb]. by rewrite Hb. }
  exists x1, y1, x2, y2. split; [done|]. split; [unfold indexed; by rewrite Hget|].
  assert (within w h (x1, y1, x2, y2)) as Hin.
  { apply grid_within; [done..|]. by eapply list_elem_of_lookup_2. }
  cbn in Hin. lia.
Qed.

Lemma getitem_grid_unusable (v : Z) :
  usable v = false -> getitem grid (v - 1) = Raised IndexError.
Proof.
  intros Hbad. assert (v < -8 \/ 9 < v) as Hv.
  { unfold usable in Hbad.
    destruct (Z.leb_spec (-8) v), (Z.leb_spec v 9); (discriminate Hbad || lia). }
  unfold getitem, grid. rewrite grid_length. change (Z.of_nat 9) with 9.
  destruct (Z.ltb_spec (v - 1) 0) as [Hneg|Hneg].
  - destruct (Z.leb_spec 0 (v - 1 + 9)); [exfalso; lia|reflexivity].
  - destruct (Z.leb_spec 0 (v - 1)); [|reflexivity].
    destruct (Z.ltb_spec (v - 1) 9); [exfalso; lia|reflexivity].
Qed.

Lemma getitem_missing {A} (l : list A) (i : nat) :
  l !! i = None -> getitem l (Z.of_nat i) = Raised IndexError.
Proof.
  intros Hnone. apply lookup_ge_None in Hnone. unfold getitem.
  destruct (Z.ltb_spec (Z.of_nat i) 0); [lia|].
  destruct (Z.leb_spec 0 (Z.of_nat i)); [|lia].
  destruct (Z.ltb_spec (Z.of_nat i) (Z.of_nat (length l))); [lia|]. reflexivity.
Qed.

Lemma good_prefix_S (k : nat) :
  good_prefix perm (S k) =
  good_prefix perm k && match perm !! k with Some v => usable v | None => false end.
Proof.
  unfold good_prefix.
  destruct (perm !! k) as [v|] eqn:Hv.
  - pose proof (lookup_lt_Some _ _ _ Hv) as Hlt.
    rewrite (take_S_r _ _ _ Hv), forallb_app. cbn [forallb].
    rewrite andb_true_r.
    destruct (Nat.leb_spec (S k) (length perm)); [|lia].
    destruct (Nat.leb_spec k (length perm)); [|lia]. reflexivity.
  - apply lookup_ge_None in Hv.
    destruct (Nat.leb_spec (S k) (length perm)); [lia|]. cbn.
    by rewrite andb_false_r.
Qed.

Lemma good_prefix_mono (j k : nat) :
  (j <= k)%nat -> good_prefix perm k = true -> good_prefix perm j = true.
Proof.
  intros Hjk. induction Hjk as [|k Hjk IH]; [done|].
  rewrite good_prefix_S. intros [Hk _]%andb_true_iff. by apply IH.
Qed.

(** The inner loop of frame [k], for any list. *)
Lemma inner_loop_any (k : nat) :
  for_each (range 0 (Z.of_nat k)) (Root.reveal src grid perm) (painted src w h [])
  = if good_prefix perm k
    then Val (painted src w h (map (indexed grid) (take k perm)))
    else Raised IndexError.
Proof using w_nonneg h_nonneg.
  induction k as [|k IH]; [reflexivity|].
  rewrite <- (Z.add_0_l (Z.of_nat (S k))), range_snoc, !Z.add_0_l.
  rewrite for_each_app, IH, good_prefix_S.
  destruct (good_prefix perm k); [|reflexivity].
  cbn [mbind exc_bind for_each andb]. unfold Root.reveal.
  destruct (perm !! k) as [v|] eqn:Hv.
  - rewrite (getitem_lookup perm (Z.of_nat k) v) by (rewrite ?Nat2Z.id; done || lia).
    cbn [mbind exc_bind].
    destruct (usable v) eqn:Hu.
    + destruct (getitem_grid_usable v Hu) as (x1 & y1 & x2 & y2 & -> & Hbox & Hx & Hy).
      cbn [mbind exc_bind].
      rewrite (paste_crop_painted src w h _ x1 y1 x2 y2 Hx Hy).
      by rewrite (take_S_r _ _ _ Hv), map_app, <- Hbox.
    + by rewrite (getitem_grid_unusable v Hu).
  - by rewrite (getitem_missing perm k Hv).
Qed.

End RenderAnyList.

Section RenderDomain.

Lemma for_each_raises {A B} (ks : list B) (body : A -> B -> exc A) (e : exn) (acc : A) :
  (forall a k, k ∈ ks -> body a k = Raised e \/ exists a', body a k = Val a') ->
  (exists k, k ∈ ks /\ forall a, body a k = Raised e) ->
  for_each ks body acc = Raised e.
Proof.
  revert acc. induction ks as [|k ks IH]; intros acc Hall (k0 & Hk0 & Hraise).
  - by apply elem_of_nil in Hk0.
  - cbn. destruct (Hall acc k) as [->|[a' Ha']]; [apply elem_of_cons; by left|done|].
    rewrite Ha'. cbn.
    apply elem_of_cons in Hk0 as [->|Hk0].
    + rewrite Hraise in Ha'. discriminate Ha'.
    + apply IH.
      * intros a k' Hk'. apply Hall. apply elem_of_cons. by right.
      * by exists k0.
Qed.

Lemma render_frames_any (src : Image) (w h : Z) (perm : list Z) :
  0 <= w -> 0 <= h ->
  Root.render_frames src w h (Root.get_grid_coordinates w h) perm =
  if renderable perm
  then Val (frames_of src w h (Root.get_grid_coordinates w h) perm)
  else Raised IndexError.
Proof.
  intros Hw Hh.
  unfold Root.render_frames.
  rewrite (gray_frame_painted src w h Hw Hh). cbn [mbind exc_bind].
  assert (forall k, k ∈ range 1 10 -> exists n, k = Z.of_nat n /\ (n <= 9)%nat) as Hrange.
  { intros k Hk. apply list_elem_of_In, in_map_iff in Hk as (i & <- & Hi).
    apply in_seq in Hi. exists (S i). split; lia. }
  unfold renderable. destruct (good_prefix perm 9) eqn:Hgood.
  - rewrite (for_each_append (range 1 10) _
               (fun k => painted src w h
                           (map (indexed (Root.get_grid_coordinates w h))
                              (take (Z.to_nat k) perm)))).
    + reflexivity.
    + intros frames k Hk. destruct (Hrange k Hk) as (n & -> & Hn).
      rewrite inner_loop_any by done.
      rewrite (good_prefix_mono perm n 9 Hn Hgood). by rewrite Nat2Z.id.
  - apply for_each_raises.
    + intros frames k Hk. destruct (Hrange k Hk) as (n & -> & Hn).
      rewrite inner_loop_any by done.
      destruct (good_prefix perm n); [right; by eexists|by left].
    + exists 9. split.
      * apply list_elem_of_In, in_map_iff. exists 8%nat. split; [done|].
        apply in_seq. lia.
      * intros frames. change 9 with (Z.of_nat 9).
        rewrite inner_loop_any by done. by rewrite Hgood.
Qed.


(** The renderer on any list of integers, for an image size: it
    succeeds exactly on the lists with at least nine entries whose first
    nine lie in -8..9; entries after the ninth are never read, and an
    entry v in -8..0 reveals the cell that v + 9 does, as Python counts
    a negative index from the end. On any other list it raises
    [IndexError]. *)
Theorem render_any_list (src : Image) (w h : Z) (perm : list Z) :
  0 <= w -> 0 <= h ->
  Root.render_frames src w h (Root.get_grid_coordinates w h) perm =
  (if renderable perm
   then Val (frames_of src w h (Root.get_grid_coordinates w h) perm)
   else Raised IndexError) /\
  (forall v, -8 <= v <= 0 ->
     indexed (Root.get_grid_coordinates w h) v
     = indexed (Root.get_grid_coordinates w h) (v + 9)).
Proof.
  intros Hw Hh. split; [by apply render_frames_any|].
  intros v Hv. unfold indexed, getitem. rewrite grid_length.
  change (Z.of_nat 9) with 9.
  destruct (Z.ltb_spec (v - 1) 0); [|lia].
  destruct (Z.ltb_spec (v + 9 - 1) 0); [lia|].
  by replace (v - 1 + 9) with (v + 9 - 1) by lia.
Qed.

Lemma render_any_list_witness :
  0 <= 3 /\ 0 <= 3 /\
  renderable [0; 1; 1; -8; 9; 2; 3; 4; 5; 77] = true /\
  renderable [1; 2; 3; 4; 5; 6; 7; 8] = false /\
  Root.render_frames tile_image 3 3 (Root.get_grid_coordinates 3 3)
    [1; 2; 3; 4; 5; 6; 7; 8] = Raised IndexError.
Proof.
  split; [lia|]. split; [lia|]. split; [reflexivity|]. split; [reflexivity|].
  rewrite (proj1 (render_any_list tile_image 3 3 [1; 2; 3; 4; 5; 6; 7; 8]
                    ltac:(lia) ltac:(lia))).
  reflexivity.
Defined.

End RenderDomain.

Section FramesOfValid.

Variables (src : Image) (w h : Z).
Hypothesis w_nonneg : 0 <= w.
Hypothesis h_nonneg : 0 <= h.

Let grid := Root.get_grid_coordinates w h.

Lemma rendered_lookup (perm : list Z) (k : nat) :
  valid_permutation perm -> (k <= 9)%nat ->
  exists frames,
    Root.render_frames src w h grid perm = Val frames /\
    frames !! k = Some (painted src w h (map (box_of grid) (take k perm))).
Proof using w_nonneg h_nonneg.
  intros Hvalid Hk. eexists. split; [by apply render_frames_closed_form|].
  by apply expected_frames_lookup.
Qed.

Lemma last_frame_full (perm : list Z) :
  valid_permutation perm ->
  painted src w h (map (box_of grid) (take 9 perm)) = painted src w h grid.
Proof using w_nonneg h_nonneg.
  intros Hvalid. unfold painted, grid. f_equal. apply raster_ext. intros x y Hx Hy.
  rewrite (proj2 (painted_boxes_revealed w h perm w_nonneg h_nonneg Hvalid 9 x y))
    by by apply all_revealed.
  destruct (proj2 (grid_covers w h x y w_nonneg h_nonneg) (conj Hx Hy))
    as (b & Hb & Hin).
  assert (existsb (fun b => inside b x y) (Root.get_grid_coordinates w h) = true)
    as ->; [|done].
  apply existsb_exists. exists b. split; [by apply list_elem_of_In|].
  by apply inside_in_box.
Qed.

End FramesOfValid.

Section ValidFrames.

(** The last frame does not depend on the order: for an image size and
    any two valid permutations, frame 9 is the same image, the one with
    all nine cells pasted. *)
Theorem last_frame_any_order (src : Image) (w h : Z) (p q : list Z) :
  0 <= w -> 0 <= h -> valid_permutation p -> valid_permutation q ->
  exists fp fq,
    Root.render_frames src w h (Root.get_grid_coordinates w h) p = Val fp /\
    Root.render_frames src w h (Root.get_grid_coordinates w h) q = Val fq /\
    fp !! 9%nat = Some (painted src w h (Root.get_grid_coordinates w h)) /\
    fq !! 9%nat = fp !! 9%nat.
Proof.
  intros Hw Hh Hp Hq.
  destruct (rendered_lookup src w h Hw Hh p 9 Hp ltac:(lia)) as (fp & Hfp & Hp9).
  destruct (rendered_lookup src w h Hw Hh q 9 Hq ltac:(lia)) as (fq & Hfq & Hq9).
  exists fp, fq. rewrite Hp9, Hq9, !last_frame_full by done. done.
Qed.

Lemma last_frame_any_order_witness :
  0 <= 9 /\ 0 <= 9 /\
  valid_permutation [1; 2; 3; 4; 5; 6; 7; 8; 9] /\
  valid_permutation [9; 8; 7; 6; 5; 4; 3; 2; 1] /\
  exists fp fq,
    Root.render_frames tile_image 9 9 (Root.get_grid_coordinates 9 9)
      [1; 2; 3; 4; 5; 6; 7; 8; 9] = Val fp /\
    Root.render_frames tile_image 9 9 (Root.get_grid_coordinates 9 9)
      [9; 8; 7; 6; 5; 4; 3; 2; 1] = Val fq /\
    fp !! 9%nat = Some (painted tile_image 9 9 (Root.get_grid_coordinates 9 9)) /\
    fq !! 9%nat = fp !! 9%nat.
Proof.
  assert (valid_permutation [1; 2; 3; 4; 5; 6; 7; 8; 9]) as Hp
    by (apply valid_permutation_decide; vm_compute; reflexivity).
  assert (valid_permutation [9; 8; 7; 6; 5; 4; 3; 2; 1]) as Hq
    by (apply valid_permutation_decide; vm_compute; reflexivity).
  split; [lia|]. split; [lia|]. split; [exact Hp|]. split; [exact Hq|].
  exact (last_frame_any_order tile_image 9 9 _ _ ltac:(lia) ltac:(lia) Hp Hq).
Defined.

(** A frame depends only on the entries revealed so far: two valid
    permutations that agree on their first k entries give the same
    frames 0..k. *)
Theorem frames_depend_on_prefix (src : Image) (w h : Z) (p q : list Z) (j k : nat) :
  0 <= w -> 0 <= h -> valid_permutation p -> valid_permutation q ->
  take k p = take k q -> (j <= k)%nat -> (k <= 9)%nat ->
  exists fp fq,
    Root.render_frames src w h (Root.get_grid_coordinates w h) p = Val fp /\
    Root.render_frames src w h (Root.get_grid_coordinates w h) q = Val fq /\
    is_Some (fp !! j) /\ fp !! j = fq !! j.
Proof.
  intros Hw Hh Hp Hq Hpre Hjk Hk.
  destruct (rendered_lookup src w h Hw Hh p j Hp ltac:(lia)) as (fp & Hfp & Hpj).
  destruct (rendered_lookup src w h Hw Hh q j Hq ltac:(lia)) as (fq & Hfq & Hqj).
  exists fp, fq. split; [done|]. split; [done|]. split; [by rewrite Hpj|].
  rewrite Hpj, Hqj.
  assert (take j p = take j q) as ->; [|done].
  pose proof (take_take p j k) as Hpj'. pose proof (take_take q j k) as Hqj'.
  rewrite Nat.min_l in Hpj', Hqj' by done.
  by rewrite <- Hpj', <- Hqj', Hpre.
Qed.

Lemma frames_depend_on_prefix_witness :
  exists fp fq,
    Root.render_frames tile_image 9 9 (Root.get_grid_coordinates 9 9)
      [5; 1; 9; 2; 3; 4; 6; 7; 8] = Val fp /\
    Root.render_frames tile_image 9 9 (Root.get_grid_coordinates 9 9)
      [5; 1; 9; 8; 7; 6; 4; 3; 2] = Val fq /\
    is_Some (fp !! 2%nat) /\ fp !! 2%nat = fq !! 2%nat.
Proof.
  apply (frames_depend_on_prefix tile_image 9 9
           [5; 1; 9; 2; 3; 4; 6; 7; 8] [5; 1; 9; 8; 7; 6; 4; 3; 2] 2 3);
    try lia; try reflexivity;
    apply valid_permutation_decide; vm_compute; reflexivity.
Defined.

(** From one frame to the next only the newly revealed cell changes:
    inside the box of entry k, frame k+1 shows the source; everywhere
    else it shows what frame k shows. What is revealed stays revealed. *)
Theorem next_frame_adds_one_cell (src : Image) (w h : Z) (perm : list Z)
    (k : nat) (v : Z) :
  0 <= w -> 0 <= h -> valid_permutation perm -> perm !! k = Some v ->
  exists frames a b,
    Root.render_frames src w h (Root.get_grid_coordinates w h) perm = Val frames /\
    frames !! k = Some a /\ frames !! S k = Some b /\
    forall x y, 0 <= x < w -> 0 <= y < h ->
      pixel_at b x y =
      if inside (box_of (Root.get_grid_coordinates w h) v) x y
      then pixel_at src x y else pixel_at a x y.
Proof.
  intros Hw Hh Hvalid Hv.
  assert (k < 9)%nat as Hk.
  { apply lookup_lt_Some in Hv. destruct Hvalid as [Hlen _]. lia. }
  eexists _, _, _. split; [by apply render_frames_closed_form|].
  split; [apply expected_frames_lookup; lia|].
  split; [apply expected_frames_lookup; lia|].
  intros x y Hx Hy. rewrite !pixel_at_painted by done.
  rewrite (take_S_r _ _ _ Hv), map_app, existsb_app. cbn [map existsb].
  rewrite orb_false_r.
  destruct (existsb _ _), (inside _ x y); reflexivity.
Qed.

Lemma next_frame_adds_one_cell_witness :
  valid_permutation [9; 8; 7; 6; 5; 4; 3; 2; 1] /\
  exists frames a b,
    Root.render_frames tile_image 9 9 (Root.get_grid_coordinates 9 9)
      [9; 8; 7; 6; 5; 4; 3; 2; 1] = Val frames /\
    frames !! 4%nat = Some a /\ frames !! 5%nat = Some b /\
    forall x y, 0 <= x < 9 -> 0 <= y < 9 ->
      pixel_at b x y =
      if inside (box_of (Root.get_grid_coordinates 9 9) 5) x y
      then pixel_at tile_image x y else pixel_at a x y.
Proof.
  assert (valid_permutation [9; 8; 7; 6; 5; 4; 3; 2; 1]) as Hq
    by (apply valid_permutation_decide; vm_compute; reflexivity).
  split; [exact Hq|].
  exact (next_frame_adds_one_cell tile_image 9 9 _ 4 5 ltac:(lia) ltac:(lia) Hq eq_refl).
Defined.

End ValidFrames.
(** * More on the validators *)

Section Rearrangements.

Lemma Root_checked_Val s l :
  Root.checked_permutation s = Val l <->
  Root.parse_permutation s = Val l /\ valid_permutation l.
Proof. by apply (checked_Val Root.parse_permutation Root.checked_permutation). Qed.

Lemma Pkg_checked_Val s l :
  Pkg.checked_permutation s = Val l <->
  Pkg.parse_permutation s = Val l /\ valid_permutation l.
Proof. by apply (checked_Val Pkg.parse_permutation Pkg.checked_permutation). Qed.

Lemma Root_accepts_iff s w l :
  Root.validate_permutation s w = (Done l, w) <->
  Root.parse_permutation s = Val l /\ valid_permutation l.
Proof.
  rewrite Root_validate_run, <- Root_checked_Val.
  destruct (Root.checked_permutation s); split; congruence.
Qed.

Lemma Pkg_accepts_iff s w l :
  Pkg.validate_permutation s w = (Done l, w) <->
  Pkg.parse_permutation s = Val l /\ valid_permutation l.
Proof.
  rewrite Pkg_validate_run, <- Pkg_checked_Val.
  destruct (Pkg.checked_permutation s); split; congruence.
Qed.

(** The two checks of the validators ([len(perm) != 9] and the set
    comparison) let through exactly the rearrangements of 1,...,9: a
    validator returns a list if and only if parsing yields that list
    and it is a permutation of [1; 2; ...; 9]. *)
Theorem validators_accept_rearrangements (s : string) (w : World) (l : list Z) :
  (Root.validate_permutation s w = (Done l, w) <->
   Root.parse_permutation s = Val l /\ l ≡ₚ [1; 2; 3; 4; 5; 6; 7; 8; 9]) /\
  (Pkg.validate_permutation s w = (Done l, w) <->
   Pkg.parse_permutation s = Val l /\ l ≡ₚ [1; 2; 3; 4; 5; 6; 7; 8; 9]).
Proof.
  rewrite Root_accepts_iff, Pkg_accepts_iff, valid_permutation_Permutation, range_1_10.
  done.
Qed.

End Rearrangements.

Section DigitStrings.

Lemma int_of_character (c : ascii) :
  int (String c EmptyString)
  = if isdigit c then Val (digit_value c) else Raised invalid_literal.
Proof. destruct c as [[] [] [] [] [] [] [] []]; reflexivity. Qed.

Lemma characters_length (s : string) :
  length (characters s) = String.length s.
Proof. induction s as [|c s IH]; [done|]. cbn. by rewrite <- IH. Qed.

Lemma chars_characters (s : string) :
  chars s = map (fun c => String c EmptyString) (characters s).
Proof. induction s as [|c s IH]; [done|]. cbn. by rewrite IH. Qed.

Lemma comprehension_int_characters (cs : list ascii) :
  comprehension int (map (fun c => String c EmptyString) cs)
  = if forallb isdigit cs then Val (map digit_value cs) else Raised invalid_literal.
Proof.
  induction cs as [|c cs IH]; [done|].
  cbn [map comprehension forallb]. rewrite int_of_character, IH.
  destruct (isdigit c); [|done]. cbn.
  by destruct (forallb isdigit cs).
Qed.

(** The digit-string form of [src/gif_unveil.py], read when the string
    holds neither a comma nor a blank: every character is one number.
    Such a string is accepted exactly when all its characters are
    digits and these digits are a valid permutation; the result is the
    list of the digits, and the string has nine characters. *)
Theorem digit_string_accepted (s : string) (w : World) (l : list Z) :
  contains "," s = false -> contains " " s = false ->
  (Root.validate_permutation s w = (Done l, w) <->
   forallb isdigit (characters s) = true /\
   l = map digit_value (characters s) /\ valid_permutation l) /\
  (Root.validate_permutation s w = (Done l, w) -> String.length s = 9%nat).
Proof.
  intros Hcomma Hblank.
  assert (Root.parse_permutation s =
          if forallb isdigit (characters s)
          then Val (map digit_value (characters s)) else Raised invalid_literal)
    as Hparse.
  { unfold Root.parse_permutation. rewrite Hcomma, Hblank. cbn [orb].
    by rewrite chars_characters, comprehension_int_characters. }
  assert (Root.validate_permutation s w = (Done l, w) <->
          forallb isdigit (characters s) = true /\
          l = map digit_value (characters s) /\ valid_permutation l) as Hiff.
  { rewrite Root_accepts_iff, Hparse.
    destruct (forallb isdigit (characters s)).
    - split; [intros [[= <-] Hv]|intros (_ & -> & Hv)]; done.
    - split; [intros [[=] _]|intros [[=] _]]. }
  split; [exact Hiff|].
  intros (_ & -> & [Hlen _])%Hiff.
  rewrite length_map in Hlen. by rewrite <- characters_length.
Qed.

Lemma digit_string_accepted_witness :
  contains "," "392715486" = false /\ contains " " "392715486" = false /\
  (Root.validate_permutation "392715486" empty_world
     = (Done [3; 9; 2; 7; 1; 5; 4; 8; 6], empty_world) ->
   String.length "392715486" = 9%nat).
Proof.
  split; [reflexivity|]. split; [reflexivity|].
  apply (digit_string_accepted "392715486" empty_world [3; 9; 2; 7; 1; 5; 4; 8; 6]);
    reflexivity.
Defined.

End DigitStrings.

Section CommaFields.

Lemma split_fields_sep (sep : ascii) (a b tok : string) :
  split_fields sep (a ++ String sep b) tok
  = split_fields sep a tok ++ split_fields sep b EmptyString.
Proof.
  revert tok. induction a as [|c a IH]; intros tok.
  - change (EmptyString ++ String sep b)%string with (String sep b).
    cbn [split_fields]. by rewrite Ascii.eqb_refl.
  - change (String c a ++ String sep b)%string with (String c (a ++ String sep b)).
    cbn [split_fields].
    destruct (Ascii.eqb c sep); [by rewrite IH|apply IH].
Qed.

Lemma comprehension_app {A B} (f : A -> exc B) (xs ys : list A) :
  comprehension f (xs ++ ys)
  = (xs' ← comprehension f xs; ys' ← comprehension f ys; Val (xs' ++ ys')).
Proof.
  induction xs as [|x xs IH]; cbn.
  - by destruct (comprehension f ys).
  - destruct (f x) as [y|e]; [|done]. cbn. rewrite IH.
    destruct (comprehension f xs) as [xs'|e]; [|done]. cbn.
    by destruct (comprehension f ys).
Qed.

(** A comma joins two inputs of [src/gifboxes/gif_unveil.py]: the
    numbers parsed from [a + "," + b] are those of [a] followed by those
    of [b], and the first error of the two raises. As the empty string
    parses to no number, a leading, a trailing or a doubled comma
    changes nothing. *)
Theorem Pkg_parse_joins (a b : string) :
  Pkg.parse_permutation (a ++ String "," b)
  = (xs ← Pkg.parse_permutation a; ys ← Pkg.parse_permutation b; Val (xs ++ ys)) /\
  Pkg.parse_permutation EmptyString = Val [] /\
  Pkg.parse_permutation (String "," b) = Pkg.parse_permutation b /\
  Pkg.parse_permutation (a ++ ",") = Pkg.parse_permutation a /\
  Pkg.parse_permutation (a ++ String "," (String "," b))
  = Pkg.parse_permutation (a ++ String "," b).
Proof.
  assert (forall a b,
    Pkg.parse_permutation (a ++ String "," b)
    = (xs ← Pkg.parse_permutation a; ys ← Pkg.parse_permutation b; Val (xs ++ ys)))
    as Hjoin.
  { intros a' b'. unfold Pkg.parse_permutation, split_on.
    by rewrite split_fields_sep, List.filter_app, comprehension_app. }
  assert (forall b, Pkg.parse_permutation (String "," b) = Pkg.parse_permutation b)
    as Hlead by reflexivity.
  split; [apply Hjoin|]. split; [reflexivity|]. split; [apply Hlead|]. split.
  - rewrite Hjoin. change (Pkg.parse_permutation EmptyString) with (Val (@nil Z)).
    destruct (Pkg.parse_permutation a) as [xs|e]; [|done]. cbn. by rewrite app_nil_r.
  - by rewrite !Hjoin, Hlead.
Qed.

End CommaFields.

Section EveryPermutation.

Lemma digit_char_facts (v : Z) :
  is_digit_value v ->
  isdigit (digit_char v) = true /\ digit_value (digit_char v) = v /\
  isspace (digit_char v) = false /\
  Ascii.eqb (digit_char v) "," = false /\ Ascii.eqb "," (digit_char v) = false /\
  Ascii.eqb " " (digit_char v) = false.
Proof.
  intros Hv.
  assert (v = 0 \/ v = 1 \/ v = 2 \/ v = 3 \/ v = 4 \/ v = 5 \/ v = 6 \/ v = 7 \/
          v = 8 \/ v = 9) as Hcases by (unfold is_digit_value in Hv; lia).
  repeat (destruct Hcases as [->|Hcases]; [by repeat split|]). subst. by repeat split.
Qed.

Lemma single_digits (vs : list Z) :
  Forall is_digit_value vs ->
  comprehension int (map (fun v => String (digit_char v) EmptyString) vs) = Val vs.
Proof.
  intros Hvs.
  rewrite <- (map_map digit_char (fun c => String c EmptyString)).
  rewrite comprehension_int_characters.
  assert (forallb isdigit (map digit_char vs) = true) as ->.
  { apply forallb_forall. intros c (v & <- & Hv)%in_map_iff.
    eapply Forall_forall in Hvs; [|by apply list_elem_of_In].
    by apply digit_char_facts. }
  f_equal. rewrite map_map. rewrite <- (map_id vs) at 2.
  apply map_ext_in. intros v Hv.
  eapply Forall_forall in Hvs; [|by apply list_elem_of_In].
  by apply digit_char_facts.
Qed.

Lemma strip_single (c : ascii) :
  isspace c = false -> strip (String c EmptyString) = String c EmptyString.
Proof. intros Hc. unfold strip. cbn [lstrip]. rewrite Hc. cbn [rstrip]. by rewrite Hc. Qed.

Lemma filter_cons_eq {A} (f : A -> bool) (x : A) (l : list A) :
  List.filter f (x :: l) = if f x then x :: List.filter f l else List.filter f l.
Proof. reflexivity. Qed.

Lemma nonblank_single_digits (vs : list Z) :
  Forall is_digit_value vs ->
  List.filter (fun x => negb (is_empty (strip x)))
    (map (fun v => String (digit_char v) EmptyString) vs)
  = map (fun v => String (digit_char v) EmptyString) vs.
Proof.
  induction 1 as [|v vs Hv Hvs IH]; [done|].
  cbn [map]. rewrite filter_cons_eq, IH.
  destruct (digit_char_facts v Hv) as (_ & _ & Hsp & _).
  by rewrite strip_single.
Qed.

Lemma digit_string_parsed (vs : list Z) :
  Forall is_digit_value vs -> Root.parse_permutation (digit_string vs) = Val vs.
Proof.
  intros Hvs. unfold Root.parse_permutation.
  assert (contains "," (digit_string vs) = false /\
          contains " " (digit_string vs) = false) as [-> ->].
  { induction Hvs as [|v vs Hv Hvs IH]; [done|].
    change (digit_string (v :: vs)) with (String (digit_char v) (digit_string vs)).
    cbn [contains].
    destruct (digit_char_facts v Hv) as (_ & _ & _ & _ & -> & ->).
    exact IH. }
  cbn [orb]. rewrite chars_characters. unfold characters, digit_string.
  rewrite list_ascii_of_string_of_list_ascii, map_map.
  by apply single_digits.
Qed.

Lemma comma_string_fields (vs : list Z) (v : Z) (tok : string) :
  Forall is_digit_value (v :: vs) ->
  split_fields "," (comma_string (v :: vs)) tok
  = snoc tok (digit_char v) :: map (fun v => String (digit_char v) EmptyString) vs.
Proof.
  revert v tok. induction vs as [|v' vs IH]; intros v tok Hvs;
    apply Forall_cons in Hvs as [Hv Hvs];
    destruct (digit_char_facts v Hv) as (_ & _ & _ & Hc & _).
  - cbn [comma_string split_fields]. by rewrite Hc.
  - change (comma_string (v :: v' :: vs))
      with (String (digit_char v) (String "," (comma_string (v' :: vs)))).
    cbn [split_fields]. rewrite Hc, Ascii.eqb_refl.
    by rewrite IH.
Qed.

Lemma comma_string_runs (vs : list Z) (v : Z) (tok : string) :
  Forall is_digit_value (v :: vs) ->
  split_runs (replace "," " " (comma_string (v :: vs))) tok
  = snoc tok (digit_char v) :: map (fun v => String (digit_char v) EmptyString) vs.
Proof.
  revert v tok. induction vs as [|v' vs IH]; intros v tok Hvs;
    apply Forall_cons in Hvs as [Hv Hvs];
    destruct (digit_char_facts v Hv) as (_ & _ & Hsp & Hc & _).
  - cbn [comma_string replace split_runs]. rewrite Hc, Hsp. by destruct tok.
  - change (comma_string (v :: v' :: vs))
      with (String (digit_char v) (String "," (comma_string (v' :: vs)))).
    cbn [replace split_runs]. rewrite Hc, Hsp, Ascii.eqb_refl.
    change (isspace " ") with true. cbv iota.
    replace (is_empty (snoc tok (digit_char v))) with false by by destruct tok.
    by rewrite IH.
Qed.

Lemma comma_string_parsed (vs : list Z) :
  Forall is_digit_value vs ->
  Pkg.parse_permutation (comma_string vs) = Val vs /\
  Root.parse_permutation (comma_string vs) = Val vs.
Proof.
  intros Hvs. destruct vs as [|v vs]; [done|]. split.
  - unfold Pkg.parse_permutation, split_on. rewrite comma_string_fields by done.
    change (snoc EmptyString (digit_char v) :: ?l)
      with (map (fun v => String (digit_char v) EmptyString) (v :: vs)).
    rewrite nonblank_single_digits by done. by apply single_digits.
  - destruct vs as [|v' vs]; [by apply (digit_string_parsed [v])|].
    unfold Root.parse_permutation.
    assert (contains "," (comma_string (v :: v' :: vs)) = true) as ->.
    { change (comma_string (v :: v' :: vs))
        with (String (digit_char v) (String "," (comma_string (v' :: vs)))).
      cbn [contains]. rewrite Ascii.eqb_refl. by rewrite orb_true_r. }
    cbn [orb]. unfold split. rewrite comma_string_runs by done.
    change (snoc EmptyString (digit_char v) :: ?l)
      with (map (fun v => String (digit_char v) EmptyString) (v :: v' :: vs)).
    rewrite nonblank_single_digits by done. by apply single_digits.
Qed.

(** Writing and reading back: a list of digits written as a digit
    string, or with commas, parses to that list; so every valid
    permutation can be entered: [src/gif_unveil.py] accepts its digit
    string and both scripts accept its comma-separated form, returning
    the permutation. *)
Theorem every_permutation_can_be_entered (perm : list Z) (w : World) :
  valid_permutation perm ->
  Root.validate_permutation (digit_string perm) w = (Done perm, w) /\
  Root.validate_permutation (comma_string perm) w = (Done perm, w) /\
  Pkg.validate_permutation (comma_string perm) w = (Done perm, w).
Proof.
  intros Hvalid.
  assert (Forall is_digit_value perm) as Hdigits.
  { apply Forall_forall. intros v Hv.
    pose proof (valid_permutation_bounds perm v Hvalid Hv). unfold is_digit_value. lia. }
  destruct (comma_string_parsed perm Hdigits) as [Hpkg Hroot].
  split; [|split].
  - apply Root_accepts_iff. split; [by apply digit_string_parsed|done].
  - by apply Root_accepts_iff.
  - by apply Pkg_accepts_iff.
Qed.

Lemma every_permutation_can_be_entered_witness :
  valid_permutation [3; 9; 2; 7; 1; 5; 4; 8; 6] /\
  digit_string [3; 9; 2; 7; 1; 5; 4; 8; 6] = "392715486"%string /\
  comma_string [3; 9; 2; 7; 1; 5; 4; 8; 6] = "3,9,2,7,1,5,4,8,6"%string /\
  Pkg.validate_permutation "3,9,2,7,1,5,4,8,6" empty_world
  = (Done [3; 9; 2; 7; 1; 5; 4; 8; 6], empty_world).
Proof.
  assert (valid_permutation [3; 9; 2; 7; 1; 5; 4; 8; 6]) as Hvalid
    by (apply valid_permutation_decide; vm_compute; reflexivity).
  split; [exact Hvalid|]. split; [reflexivity|]. split; [reflexivity|].
  apply (every_permutation_can_be_entered [3; 9; 2; 7; 1; 5; 4; 8; 6] empty_world Hvalid).
Defined.

End EveryPermutation.

(** * What the package accepts, the script accepts *)

Section StringFacts.

Lemma characters_String (c : ascii) (s : string) :
  characters (String c s) = c :: characters s.
Proof. reflexivity. Qed.

Lemma characters_append (s t : string) :
  characters (s ++ t) = characters s ++ characters t.
Proof.
  induction s as [|c s IH]; [done|].
  change (String c s ++ t)%string with (String c (s ++ t)).
  by rewrite !characters_String, IH.
Qed.

Lemma append_empty_r (s : string) : (s ++ EmptyString)%string = s.
Proof.
  induction s as [|c s IH]; [done|].
  change (String c s ++ EmptyString)%string with (String c (s ++ EmptyString)).
  by rewrite IH.
Qed.

Lemma append_assoc (s t u : string) : ((s ++ t) ++ u)%string = (s ++ (t ++ u))%string.
Proof.
  induction s as [|c s IH]; [done|].
  change (String c s ++ t)%string with (String c (s ++ t)).
  change (String c (s ++ t) ++ u)%string with (String c ((s ++ t) ++ u)).
  change (String c s ++ (t ++ u))%string with (String c (s ++ (t ++ u))).
  by rewrite IH.
Qed.

Lemma snoc_append (tok : string) (c : ascii) (s : string) :
  (snoc tok c ++ s)%string = (tok ++ String c s)%string.
Proof. unfold snoc. by rewrite append_assoc. Qed.

Lemma is_empty_true (s : string) : is_empty s = true -> s = EmptyString.
Proof. by destruct s. Qed.

Lemma is_empty_snoc (tok : string) (c : ascii) : is_empty (snoc tok c) = false.
Proof. by destruct tok. Qed.

(** Stripping a string without blanks changes nothing. *)
Lemma lstrip_clean (blank : ascii -> bool) (t : string) :
  forallb (fun c => negb (blank c)) (characters t) = true -> lstrip blank t = t.
Proof.
  destruct t as [|c t]; [done|]. rewrite characters_String. cbn [forallb lstrip].
  intros [Hc _]%andb_true_iff. by destruct (blank c).
Qed.

Lemma rstrip_clean (blank : ascii -> bool) (t : string) :
  forallb (fun c => negb (blank c)) (characters t) = true -> rstrip blank t = t.
Proof.
  induction t as [|c t IH]; [done|]. rewrite characters_String. cbn [forallb rstrip].
  intros [Hc Ht]%andb_true_iff. rewrite (IH Ht).
  destruct t; [by destruct (blank c)|done].
Qed.

(** What [lstrip] and [rstrip] take off are blanks. *)
Lemma lstrip_split (blank : ascii -> bool) (f : string) :
  exists pre, f = (pre ++ lstrip blank f)%string /\
              forallb blank (characters pre) = true.
Proof.
  induction f as [|c f (pre & Hf & Hpre)]; [by exists EmptyString|].
  cbn [lstrip]. destruct (blank c) eqn:Hc.
  - exists (String c pre). split.
    + change (String c pre ++ lstrip blank f)%string
        with (String c (pre ++ lstrip blank f)). by rewrite <- Hf.
    + rewrite characters_String. cbn [forallb]. by rewrite Hc, Hpre.
  - by exists EmptyString.
Qed.

Lemma rstrip_split (blank : ascii -> bool) (r : string) :
  exists post, r = (rstrip blank r ++ post)%string /\
               forallb blank (characters post) = true.
Proof.
  induction r as [|c r (post & Hr & Hpost)]; [by exists EmptyString|].
  cbn [rstrip]. destruct (rstrip blank r) as [|a r0] eqn:Hstrip.
  - change (EmptyString ++ post)%string with post in Hr. subst post.
    destruct (blank c) eqn:Hc.
    + exists (String c r). split; [done|].
      rewrite characters_String. cbn [forallb]. by rewrite Hc, Hpost.
    + by exists r.
  - exists post. split; [|done].
    change (String c (String a r0) ++ post)%string
      with (String c (String a r0 ++ post)). by rewrite <- Hr.
Qed.

Lemma rstrip_empty (blank : ascii -> bool) (r : string) :
  rstrip blank r = EmptyString -> forallb blank (characters r) = true.
Proof.
  induction r as [|c r IH]; [done|]. cbn [rstrip]. rewrite characters_String.
  cbn [forallb]. destruct (rstrip blank r) eqn:Hstrip; [|done].
  destruct (blank c); [|done]. intros _. by rewrite IH.
Qed.

Lemma int_blank_isspace (c : ascii) : int_blank c = true -> isspace c = true.
Proof. destruct c as [[] [] [] [] [] [] [] []]; vm_compute; congruence. Qed.

Lemma isdigit_not_space (c : ascii) : isdigit c = true -> isspace c = false.
Proof. destruct c as [[] [] [] [] [] [] [] []]; vm_compute; congruence. Qed.

Lemma blanks_are_spaces (cs : list ascii) :
  forallb int_blank cs = true -> forallb isspace cs = true.
Proof.
  induction cs as [|c cs IH]; [done|]. cbn [forallb].
  intros [Hc Hcs]%andb_true_iff. by rewrite (int_blank_isspace c Hc), IH.
Qed.

Lemma spaceless_no_blank (cs : list ascii) :
  forallb (fun c => negb (isspace c)) cs = true ->
  forallb (fun c => negb (int_blank c)) cs = true.
Proof.
  induction cs as [|c cs IH]; [done|]. cbn [forallb].
  intros [Hc Hcs]%andb_true_iff. rewrite IH by done.
  destruct (int_blank c) eqn:Hb; [|done]. by rewrite (int_blank_isspace c Hb) in Hc.
Qed.

Lemma replace_clean (a b : ascii) (s : string) :
  contains a s = false -> replace a b s = s.
Proof.
  induction s as [|c s IH]; [done|]. cbn [contains replace].
  intros [Hc Hs]%orb_false_iff. rewrite IH by done.
  rewrite Ascii.eqb_sym, Hc. done.
Qed.

Lemma replace_append (a b : ascii) (s t : string) :
  replace a b (s ++ t) = (replace a b s ++ replace a b t)%string.
Proof.
  induction s as [|c s IH]; [done|].
  change (String c s ++ t)%string with (String c (s ++ t)). cbn [replace].
  rewrite IH. done.
Qed.

Lemma contains_snoc (a : ascii) (tok : string) (c : ascii) :
  contains a (snoc tok c) = contains a tok || Ascii.eqb a c.
Proof.
  unfold snoc. induction tok as [|d tok IH].
  - change (EmptyString ++ String c EmptyString)%string with (String c EmptyString).
    cbn [contains]. by rewrite orb_false_r.
  - change (String d tok ++ String c EmptyString)%string
      with (String d (tok ++ String c EmptyString)).
    cbn [contains]. by rewrite IH, orb_assoc.
Qed.

End StringFacts.

Section Runs.

(** [split()] on blanks only, on a run, and on what follows a run. *)
Lemma split_runs_allspace (s : string) :
  forallb isspace (characters s) = true -> split_runs s EmptyString = [].
Proof.
  induction s as [|c s IH]; [done|]. rewrite characters_String. cbn [forallb split_runs].
  intros [-> Hs]%andb_true_iff. by apply IH.
Qed.

Lemma split_runs_blanks (pre s : string) :
  forallb isspace (characters pre) = true ->
  split_runs (pre ++ s) EmptyString = split_runs s EmptyString.
Proof.
  induction pre as [|c pre IH]; [done|]. rewrite characters_String. cbn [forallb].
  intros [Hc Hpre]%andb_true_iff.
  change (String c pre ++ s)%string with (String c (pre ++ s)).
  cbn [split_runs]. rewrite Hc. by apply IH.
Qed.

Lemma split_runs_clean (body s tok : string) :
  forallb (fun c => negb (isspace c)) (characters body) = true ->
  split_runs (body ++ s) tok = split_runs s (tok ++ body).
Proof.
  revert tok. induction body as [|c body IH]; intros tok.
  - intros _. by rewrite append_empty_r.
  - rewrite characters_String. cbn [forallb]. intros [Hc Hbody]%andb_true_iff.
    change (String c body ++ s)%string with (String c (body ++ s)).
    cbn [split_runs]. destruct (isspace c); [done|].
    rewrite IH by done. by rewrite snoc_append.
Qed.

Lemma split_runs_tail (post tok : string) :
  forallb isspace (characters post) = true -> is_empty tok = false ->
  split_runs post tok = [tok].
Proof.
  intros Hpost Htok. destruct post as [|c post]; cbn [split_runs]; [by rewrite Htok|].
  rewrite characters_String in Hpost. cbn [forallb] in Hpost.
  apply andb_true_iff in Hpost as [-> Hpost].
  by rewrite Htok, split_runs_allspace.
Qed.

(** A space splits: the runs before it, then the runs after it. *)
Lemma split_runs_space (a : string) (c : ascii) (b tok : string) :
  isspace c = true ->
  split_runs (a ++ String c b) tok = split_runs a tok ++ split_runs b EmptyString.
Proof.
  intros Hc. revert tok. induction a as [|d a IH]; intros tok.
  - change (EmptyString ++ String c b)%string with (String c b).
    cbn [split_runs]. rewrite Hc. by destruct (is_empty tok).
  - change (String d a ++ String c b)%string with (String d (a ++ String c b)).
    cbn [split_runs]. destruct (isspace d); [|apply IH].
    destruct (is_empty tok); by rewrite IH.
Qed.

(** The runs that [split()] returns are not empty and hold no space, so
    the filter [if x.strip()] of [src/gif_unveil.py] keeps them all. *)
Lemma split_runs_tokens (s tok : string) :
  forallb (fun c => negb (isspace c)) (characters tok) = true ->
  Forall (fun t => is_empty t = false /\
                   forallb (fun c => negb (isspace c)) (characters t) = true)
    (split_runs s tok).
Proof.
  revert tok. induction s as [|c s IH]; intros tok Htok; cbn [split_runs].
  - destruct (is_empty tok) eqn:He; [constructor|]. by repeat constructor.
  - destruct (isspace c) eqn:Hc.
    + destruct (is_empty tok) eqn:He; [by apply IH|].
      constructor; [done|by apply IH].
    + apply IH. unfold snoc. rewrite characters_append, forallb_app, Htok.
      cbn. by rewrite Hc.
Qed.

Lemma filter_nonblank_split (s : string) :
  List.filter (fun x => negb (is_empty (strip x))) (split s) = split s.
Proof.
  unfold split.
  assert (Forall (fun t => is_empty t = false /\
                   forallb (fun c => negb (isspace c)) (characters t) = true)
            (split_runs s EmptyString)) as Hall by by apply split_runs_tokens.
  induction Hall as [|t ts [Ht Hclean] _ IH]; [done|].
  cbn [List.filter]. unfold strip at 1.
  rewrite lstrip_clean, rstrip_clean by done. rewrite Ht. cbn [negb]. by rewrite IH.
Qed.

End Runs.

Section Fields.

(** The digits of a literal hold no space. *)
Lemma read_digits_clean (s : string) (acc : Z) (after_digit : bool) (v : Z) :
  read_digits s acc after_digit = Some v ->
  forallb (fun c => negb (isspace c)) (characters s) = true.
Proof.
  revert acc after_digit. induction s as [|c s IH]; intros acc after_digit; [done|].
  cbn [read_digits]. rewrite characters_String. cbn [forallb].
  destruct (isdigit c) eqn:Hd.
  - intros H. rewrite (isdigit_not_space c Hd). by rewrite (IH _ _ H).
  - destruct (Ascii.eqb c "_") eqn:Hu; [|done].
    apply Ascii.eqb_eq in Hu. subst c.
    destruct after_digit; [|done]. intros H. by rewrite (IH _ _ H).
Qed.

(** What [int] reads, once the blanks around it are taken off, is
    not empty and holds no space. *)
Lemma int_body_clean (f : string) (v : Z) :
  int f = Val v ->
  is_empty (rstrip int_blank (lstrip int_blank f)) = false /\
  forallb (fun c => negb (isspace c))
    (characters (rstrip int_blank (lstrip int_blank f))) = true.
Proof.
  unfold int. generalize (rstrip int_blank (lstrip int_blank f)). intros body H.
  destruct body as [|c body]; [done|]. split; [done|].
  rewrite characters_String. cbn [forallb].
  destruct c as [[] [] [] [] [] [] [] []]; cbv beta iota in H;
    (destruct (read_digits _ 0 false) as [v'|] eqn:E; [|discriminate H]);
    apply read_digits_clean in E;
    first [ by rewrite characters_String in E
          | by rewrite E ].
Qed.

(** A field that [int] reads is one run for [split()], with the same
    value. *)
Lemma split_field (f : string) (v : Z) :
  int f = Val v -> exists body, split f = [body] /\ int body = Val v.
Proof.
  intros Hint. destruct (int_body_clean f v Hint) as [Hne Hclean].
  exists (rstrip int_blank (lstrip int_blank f)). split.
  - destruct (lstrip_split int_blank f) as (pre & Hf & Hpre).
    destruct (rstrip_split int_blank (lstrip int_blank f)) as (post & Hr & Hpost).
    apply blanks_are_spaces in Hpre, Hpost.
    unfold split. rewrite Hf at 1. rewrite split_runs_blanks by done.
    rewrite Hr at 1. rewrite split_runs_clean by done.
    change (EmptyString ++ ?s)%string with s.
    by apply split_runs_tail.
  - unfold int in Hint |- *.
    by rewrite lstrip_clean, rstrip_clean by by apply spaceless_no_blank.
Qed.

(** A field of blanks gives no run. *)
Lemma split_blank_field (f : string) :
  is_empty (strip f) = true -> split f = [].
Proof.
  intros He%is_empty_true. unfold strip in He. apply rstrip_empty in He.
  destruct (lstrip_split isspace f) as (pre & Hf & Hpre).
  unfold split. rewrite Hf, split_runs_blanks by done.
  by apply split_runs_allspace.
Qed.

(** The fields that the package reads give, run by run, what the
    script reads. *)
Lemma fields_runs (fs : list string) (l : list Z) :
  comprehension int (List.filter (fun x => negb (is_empty (strip x))) fs) = Val l ->
  comprehension int (List.concat (List.map split fs)) = Val l.
Proof.
  revert l. induction fs as [|f fs IH]; intros l; [done|].
  cbn [List.filter List.map List.concat].
  destruct (is_empty (strip f)) eqn:He; cbn [negb].
  - rewrite (split_blank_field f He). apply IH.
  - cbn [comprehension]. destruct (int f) as [v|e] eqn:Hint; [|done].
    destruct (split_field f v Hint) as (body & -> & Hbody).
    cbn [app comprehension]. rewrite Hbody. cbn [mbind exc_bind].
    destruct (comprehension int (List.filter _ fs)) as [l'|e]; [|done].
    by rewrite (IH l' eq_refl).
Qed.

(** With the commas replaced by blanks, [split()] gives the runs of the
    comma-separated fields, field by field. *)
Lemma split_replaced (s tok : string) :
  contains "," tok = false ->
  split (replace "," " " (tok ++ s))
  = List.concat (List.map split (split_fields "," s tok)).
Proof.
  revert tok. induction s as [|c s IH]; intros tok Htok.
  - rewrite append_empty_r, replace_clean by done.
    cbn [split_fields List.map List.concat]. by rewrite app_nil_r.
  - cbn [split_fields]. destruct (Ascii.eqb c ",") eqn:Hc.
    + apply Ascii.eqb_eq in Hc. subst c.
      cbn [List.map List.concat].
      rewrite <- (IH EmptyString eq_refl).
      change (EmptyString ++ s)%string with s.
      rewrite replace_append, replace_clean by done.
      cbn [replace]. change (Ascii.eqb "," ",") with true. cbv iota.
      unfold split. by rewrite split_runs_space.
    + rewrite <- snoc_append. apply IH.
      rewrite contains_snoc, Htok, Ascii.eqb_sym, Hc. done.
Qed.

Lemma split_fields_one (sep : ascii) (s tok : string) :
  contains sep s = false -> split_fields sep s tok = [(tok ++ s)%string].
Proof.
  revert tok. induction s as [|c s IH]; intros tok.
  - intros _. by rewrite append_empty_r.
  - cbn [contains split_fields]. intros [Hc Hs]%orb_false_iff.
    rewrite Ascii.eqb_sym, Hc, IH by done. by rewrite snoc_append.
Qed.

Lemma comprehension_length {A B} (f : A -> exc B) (xs : list A) (ys : list B) :
  comprehension f xs = Val ys -> length ys = length xs.
Proof.
  revert ys. induction xs as [|x xs IH]; intros ys; cbn [comprehension].
  - by intros [= <-].
  - destruct (f x) as [y|e]; [|done]. cbn [mbind exc_bind].
    destruct (comprehension f xs) as [ys'|e]; [|done]. cbn [mbind exc_bind].
    intros [= <-]. cbn [length]. by rewrite (IH ys' eq_refl).
Qed.

Lemma Pkg_parse_separated (s : string) (l : list Z) :
  Pkg.parse_permutation s = Val l ->
  contains "," s || contains " " s = true ->
  Root.parse_permutation s = Val l.
Proof.
  unfold Pkg.parse_permutation, Root.parse_permutation, split_on.
  intros Hparse ->. rewrite filter_nonblank_split.
  pose proof (split_replaced s EmptyString eq_refl) as Hruns.
  change (EmptyString ++ s)%string with s in Hruns.
  rewrite Hruns. by apply fields_runs.
Qed.

Lemma Pkg_parse_no_comma (s : string) (l : list Z) :
  Pkg.parse_permutation s = Val l -> contains "," s = false -> (length l <= 1)%nat.
Proof.
  unfold Pkg.parse_permutation, split_on. intros Hparse Hs.
  rewrite split_fields_one in Hparse by done.
  apply comprehension_length in Hparse. rewrite Hparse.
  cbn [List.filter]. destruct (negb _); cbn [length]; lia.
Qed.

(** Every string that [src/gifboxes/gif_unveil.py] accepts holds a
    comma and is accepted by [src/gif_unveil.py], with the same list:
    the fields between the commas, which [int] reads with the blanks
    around them, are the runs that [split()] finds once the commas are
    replaced by blanks. *)
Theorem Pkg_accepted_is_Root_accepted (s : string) (w : World) (l : list Z) :
  Pkg.validate_permutation s w = (Done l, w) ->
  Root.validate_permutation s w = (Done l, w) /\
  contains "," s = true /\
  Root.parse_permutation s = Pkg.parse_permutation s.
Proof.
  intros [Hparse Hvalid]%Pkg_accepts_iff.
  assert (contains "," s = true) as Hcomma.
  { destruct (contains "," s) eqn:Hc; [done|].
    pose proof (Pkg_parse_no_comma s l Hparse Hc) as Hlen.
    destruct Hvalid as [Hnine _]. lia. }
  assert (Root.parse_permutation s = Val l) as Hroot.
  { apply Pkg_parse_separated; [done|]. by rewrite Hcomma. }
  split; [by apply Root_accepts_iff|]. split; [done|]. by rewrite Hroot, Hparse.
Qed.

Lemma Pkg_accepted_is_Root_accepted_witness :
  Pkg.validate_permutation " 3, 9 ,2,+7,01,5,,4,8,6," empty_world
  = (Done [3; 9; 2; 7; 1; 5; 4; 8; 6], empty_world) /\
  Root.validate_permutation " 3, 9 ,2,+7,01,5,,4,8,6," empty_world
  = (Done [3; 9; 2; 7; 1; 5; 4; 8; 6], empty_world).
Proof.
  split; [reflexivity|].
  exact (proj1 (Pkg_accepted_is_Root_accepted " 3, 9 ,2,+7,01,5,,4,8,6," empty_world
                  [3; 9; 2; 7; 1; 5; 4; 8; 6] eq_refl)).
Defined.

End Fields.
(** * More on whole runs *)

Section RunsMore.

(** A run changes no file but, at most, the one at its output path; in
    particular the image file is as it was unless it is the output
    path itself. *)
Theorem only_output_path_changes pf inv w (p : string) :
  files (snd (run pf inv w)) !! p = files w !! p \/ output_of pf inv = Val p.
Proof.
  destruct (run_classified pf inv w)
    as [Hnone|e Hfound Hout|out e Hfound Hout Hperm|out perm e Hout Hperm Hopen
        |out perm im e Hout Hperm Hopen Hr|out perm im frames e Hout Hperm Hopen Hr Henc
        |out perm im frames ms loop Hout Hperm Hopen Hr Hlen Henc];
    try (by left).
  destruct (decide (out = p)) as [->|Hne]; [by right|left].
  unfold saved. destruct (write_fate pf out); cbn;
    by rewrite ?lookup_insert_ne.
Qed.

(** The calls of a run: none when the image path does not exist, the
    output path cannot be derived or the permutation is rejected;
    otherwise the decoder is called once, on the image path, and then
    the encoder at most once, on the output path. *)
Theorem calls_in_order pf inv w :
  (new_calls w (snd (run pf inv w)) = [] /\
   (files w !! image_of inv = None \/ (exists e, output_of pf inv = Raised e) \/
    exists e, checked_of inv = Raised e)) \/
  (is_Some (files w !! image_of inv) /\ (exists perm, checked_of inv = Val perm) /\
   exists out, output_of pf inv = Val out /\
     (new_calls w (snd (run pf inv w)) = [OpenCall (image_of inv)] \/
      exists frames ms loop,
        new_calls w (snd (run pf inv w))
        = [OpenCall (image_of inv); SaveCall out frames ms loop])).
Proof.
  rewrite run_table. case_bool_decide as Hfound.
  2:{ left. split; [by apply new_calls_app; rewrite app_nil_r|].
      left. destruct (files w !! image_of inv) eqn:Hl; [|done].
      destruct Hfound. by eexists. }
  destruct (output_of pf inv) as [out|e] eqn:Hout.
  2:{ left. split; [by apply new_calls_app; rewrite app_nil_r|]. right. left. by exists e. }
  destruct (checked_of inv) as [perm|e] eqn:Hperm.
  2:{ left. split; [by apply new_calls_app; rewrite app_nil_r|]. right. right. by exists e. }
  right. split; [done|]. split; [by exists perm|]. exists out. split; [done|].
  cbv zeta.
  destruct (opened w (image_of inv)) as [im|e]; [|left; by apply new_calls_app].
  destruct (rendered (loaded_of inv im) perm) as [frames|e];
    [|left; by apply new_calls_app].
  destruct (encoding_of inv frames) as [[ms loop]|e]; [|left; by apply new_calls_app].
  destruct (getitem frames 0) as [first|e]; [|left; by apply new_calls_app].
  right. exists (first :: drop 1 frames), ms, loop.
  apply new_calls_app. unfold saved.
  destruct (write_fate pf out); cbn; by rewrite <- app_assoc.
Qed.




Lemma frames_handed_no_call (w w' : World) :
  calls w' = calls w -> frames_handed w w' = [].
Proof.
  intros Hc. unfold frames_handed.
  rewrite (new_calls_app w w' []); [done|]. by rewrite app_nil_r.
Qed.

Lemma frames_handed_open_only (w w' : World) (p : string) :
  calls w' = calls w ++ [OpenCall p] -> frames_handed w w' = [].
Proof.
  intros Hc. unfold frames_handed. by rewrite (new_calls_app w w' [OpenCall p]).
Qed.

Lemma per_frame_not_finite (d : float) (z : Z) :
  d = S754_nan \/ (exists s, d = S754_infinity s) ->
  int_of_float (per_frame d) <> Val z.
Proof. intros [->|[[] ->]]; vm_compute; discriminate. Qed.

(** A duration that is not a number or is infinite ([-d nan], [-d inf],
    which the float parser takes) makes [src/gif_unveil.py] fail: the
    run ends with status 1, the encoder is never called and no file
    changes. *)
Theorem unbounded_duration_fails pf (args : Root.Args) w :
  Root.duration args = S754_nan \/ (exists s, Root.duration args = S754_infinity s) ->
  status (fst (run pf (RootRun args) w)) = 1 /\
  files (snd (run pf (RootRun args) w)) = files w /\
  frames_handed w (snd (run pf (RootRun args) w)) = [].
Proof.
  intros Hd.
  destruct (run_classified pf (RootRun args) w)
    as [Hnone|e Hfound Hout|out e Hfound Hout Hperm|out perm e Hout Hperm Hopen
        |out perm im e Hout Hperm Hopen Hr|out perm im frames e Hout Hperm Hopen Hr Henc
        |out perm im frames ms loop Hout Hperm Hopen Hr Hlen Henc].
  1-3: (split; [done|]; split; [done|]; by apply frames_handed_no_call).
  1-3: (split; [done|]; split; [done|];
        by apply (frames_handed_open_only _ _ (Root.image args))).
  exfalso. cbn in Henc. rewrite frame_duration_ten in Henc by done.
  destruct (int_of_float (per_frame (Root.duration args))) as [z|e] eqn:Hz;
    [|discriminate Henc].
  by apply (per_frame_not_finite _ z Hd).
Qed.

Lemma unbounded_duration_fails_witness :
  let pf := mkPlatform (fun p => Val p) (fun _ => Written) in
  let args := Root.mkArgs "in.png" "123456789" (Some "out.gif"%string) S754_nan in
  let w := mkWorld {[ "in.png" := ImageFile tile_image ]} [] [] in
  (Root.duration args = S754_nan \/ (exists s, Root.duration args = S754_infinity s)) /\
  status (fst (run pf (RootRun args) w)) = 1 /\
  stdout (snd (run pf (RootRun args) w))
  = [ErrorCreatingGIF (ValueError "cannot convert float NaN to integer")].
Proof.
  intros pf args w.
  split; [by left|]. split; [|vm_compute; reflexivity].
  apply (unbounded_duration_fails pf args w). by left.
Defined.

Lemma Root_loaded_well_formed (im : Image) :
  well_formed im -> well_formed (Root_loaded im).
Proof.
  intros Hwf. unfold Root_loaded.
  destruct (negb _); [apply convert_well_formed|]; by apply exif_transpose_well_formed.
Qed.

Lemma Pkg_loaded_well_formed (im : Image) :
  well_formed im -> well_formed (Pkg_loaded im).
Proof. intros Hwf. unfold Pkg_loaded. by destruct (negb _). Qed.

Lemma rendered_any (src : Image) (perm : list Z) :
  well_formed src ->
  rendered src perm =
  if renderable perm
  then Val (frames_of src (width src) (height src)
              (Root.get_grid_coordinates (width src) (height src)) perm)
  else Raised IndexError.
Proof. intros (Hw & Hh & _). by apply render_frames_any. Qed.

Lemma frames_of_first src w h grid perm :
  exists first rest,
    frames_of src w h grid perm = first :: rest /\ length rest = 9%nat.
Proof. eexists _, _. split; reflexivity. Qed.

(** [create_unveil_gif] does not validate the list it is given. Called
    on a decodable image with a list it cannot render (fewer than nine
    entries, or one of the first nine outside -8..9) it prints the
    [IndexError] as the error of creating the GIF and exits with status
    1, after the decoder and without calling the encoder. Called with
    any other list, a valid permutation or not, it renders ten frames
    and hands them to the encoder. *)
Theorem create_unveil_gif_unvalidated pf path perm out d w im :
  opened w path = Val im -> well_formed im ->
  Pkg.create_unveil_gif pf path perm out w =
  (if renderable perm
   then saved pf out
          (frames_of (Pkg_loaded im) (width (Pkg_loaded im)) (height (Pkg_loaded im))
             (Root.get_grid_coordinates (width (Pkg_loaded im)) (height (Pkg_loaded im)))
             perm)
          500 (Some 0) (log (OpenCall path) w)
   else failed IndexError (log (OpenCall path) w)) /\
  Root.create_unveil_gif pf path perm out d w =
  (if renderable perm
   then let frames :=
          frames_of (Root_loaded im) (width (Root_loaded im)) (height (Root_loaded im))
            (Root.get_grid_coordinates (width (Root_loaded im)) (height (Root_loaded im)))
            perm in
        match int_of_float (per_frame d) with
        | Val ms => saved pf out frames ms None (log (OpenCall path) w)
        | Raised e => failed e (log (OpenCall path) w)
        end
   else failed IndexError (log (OpenCall path) w)).
Proof.
  intros Hopen Hwf. split.
  - rewrite Pkg_create_run, Hopen. cbv zeta.
    rewrite rendered_any by by apply Pkg_loaded_well_formed.
    destruct (renderable perm); [|done].
    destruct (frames_of_first (Pkg_loaded im) (width (Pkg_loaded im))
                (height (Pkg_loaded im))
                (Root.get_grid_coordinates (width (Pkg_loaded im)) (height (Pkg_loaded im)))
                perm) as (first & rest & -> & _).
    reflexivity.
  - rewrite Root_create_run, Hopen. cbv zeta.
    rewrite rendered_any by by apply Root_loaded_well_formed.
    destruct (renderable perm); [|done].
    rewrite frame_duration_ten by reflexivity.
    destruct (int_of_float (per_frame d)) as [ms|e]; [|done].
    destruct (frames_of_first (Root_loaded im) (width (Root_loaded im))
                (height (Root_loaded im))
                (Root.get_grid_coordinates (width (Root_loaded im))
                   (height (Root_loaded im)))
                perm) as (first & rest & -> & _).
    reflexivity.
Qed.

Lemma create_unveil_gif_unvalidated_witness :
  let pf := mkPlatform (fun p => Val p) (fun _ => Written) in
  let w := mkWorld {[ "in.png" := ImageFile tile_image ]} [] [] in
  opened w "in.png" = Val tile_image /\ well_formed tile_image /\
  Pkg.create_unveil_gif pf "in.png" [1; 2; 3; 4; 5; 6; 7; 8] "out.gif" w
  = failed IndexError (log (OpenCall "in.png") w).
Proof.
  intros pf w. split; [reflexivity|]. split; [apply tile_image_well_formed|].
  exact (proj1 (create_unveil_gif_unvalidated pf "in.png" [1; 2; 3; 4; 5; 6; 7; 8]
                  "out.gif" (S754_zero false) w tile_image eq_refl
                  tile_image_well_formed)).
Defined.

End RunsMore.
